(** * Digit extraction for BGV ciphertexts (HElib, [extractDigits.cpp])

    A shallow embedding of [buildDigitPolynomial] and [extractDigits],
    and the properties of the two routines.

    Conventions.  The C++ type [long] is read as [Z] (the arithmetic of the
    routines is assumed not to overflow).  NTL's [ZZX] is a coefficient list,
    lowest degree first.  [vec_long] and [vector<Ctxt>] are lists indexed by
    [nat], read with [!!] and written with [<[i:=x]>]; every index the
    routines use is in range. *)

From Stdlib Require Import ZArith Znumtheory Zcong Lia List Bool.
From Stdlib Require Import Zmod.
From stdpp Require Import base list.
Import ListNotations.
Local Open Scope Z_scope.

(** ** NTL primitives used by the builder *)

(** [power_long(a, e)]: the integer [a^e]. *)
Definition power_long (a e : Z) : Z := a ^ e.

(** [PowerMod(a, e, n)]: [a^e mod n], for [0 <= a < n] and [0 <= e]. *)
Definition PowerMod (a e n : Z) : Z := (a ^ e) mod n.

(** ** Integer polynomials *)

Module ZZX.

Definition t := list Z.

(** NTL keeps a [ZZX] free of leading zero coefficients. *)
Fixpoint normalize (f : list Z) : list Z :=
  match f with
  | [] => []
  | c :: f' =>
      match normalize f' with
      | [] => if c =? 0 then [] else [c]
      | g => c :: g
      end
  end.

(** [deg(f)]; the zero polynomial has degree [-1]. *)
Definition deg (f : t) : Z := Z.of_nat (length (normalize f)) - 1.

Definition LeadCoeff (f : t) : Z := List.last (normalize f) 0.

(** [SetCoeff(f, i)]: make the coefficient of [x^i] equal to one.
    (NTL raises an error for [i < 0]; the builder calls it with [i = p].) *)
Definition SetCoeff (f : t) (i : Z) : t :=
  let g := normalize f in
  let k := Z.to_nat i in
  normalize (<[k := 1]> (g ++ replicate (S k - length g) 0)).

(** Evaluation, by Horner's rule. *)
Fixpoint eval (f : t) (z : Z) : Z :=
  match f with
  | [] => 0
  | c :: f' => c + z * eval f' z
  end.

Fixpoint add (f g : t) : t :=
  match f, g with
  | [], _ => g
  | _, [] => f
  | a :: f', b :: g' => (a + b) :: add f' g'
  end.

Definition scale (c : Z) (f : t) : t := map (Z.mul c) f.

(** [f * (x - a)] *)
Definition mul_linear (a : Z) (f : t) : t := add (0 :: f) (scale (- a) f).

Definition reduce (m : Z) (f : t) : t := map (fun c => c mod m) f.

End ZZX.

Abbreviation ZZX := ZZX.t.

(** ** Modular interpolation *)

(** Modelled from the spec: the interpolation behind [interpolateMod],
    by Newton's scheme over the residues modulo [m].  [P] interpolates the
    points already seen and [N] is the product of [x - x_i] over them. *)
Fixpoint newton (m : Z) (pts : list (Z * Z)) (P N : ZZX) : ZZX :=
  match pts with
  | [] => P
  | (x, y) :: pts' =>
      let c := ((y - ZZX.eval P x) * Z.invmod (ZZX.eval N x) m) mod m in
      newton m pts' (ZZX.add P (ZZX.scale c N)) (ZZX.mul_linear x N)
  end.

(** Modelled from the spec: [interpolateMod(result, x, y, p, e)] belongs to
    the repository's number-theory helpers, which are not among the sources
    at hand.  The spec asks for the polynomial of degree at most [p - 1]
    through the [p] points [(x[j], y[j])] modulo [p^e], the abscissae being
    distinct modulo [p].  That polynomial is unique modulo [p^e]; it is
    computed here by Newton's scheme, with coefficients in [[0, p^e)]. *)
Definition interpolateMod (x y : list Z) (p e : Z) : ZZX :=
  let m := power_long p e in
  ZZX.normalize (ZZX.reduce m (newton m (zip x y) [] [1])).

(** ** [buildDigitPolynomial] *)

(** [while (y > h) y -= m;] *)
Fixpoint while_above (fuel : nat) (h m y : Z) : Z :=
  match fuel with
  | O => y
  | S fuel' => if y >? h then while_above fuel' h m (y - m) else y
  end.

(** [while (y < l) y += m;] *)
Fixpoint while_below (fuel : nat) (l m y : Z) : Z :=
  match fuel with
  | O => y
  | S fuel' => if y <? l then while_below fuel' l m (y + m) else y
  end.

(** The two folding loops of the builder, run for as many turns as the
    distance of [y] from the target interval allows. *)
Definition fold_centered (p2e y : Z) : Z :=
  let h := p2e ÷ 2 in
  let y1 := while_above (Z.to_nat ((y - h) / p2e + 1)) h p2e y in
  while_below (Z.to_nat ((- h - y1) / p2e + 1)) (- h) p2e y1.

(** One turn of the loop over [j]: the assignments to [x[j]] and [y[j]]. *)
Definition table_step (p p2e bottom : Z) (xy : list Z * list Z) (j : nat)
  : list Z * list Z :=
  let z := bottom + Z.of_nat j in
  let y0 := z - PowerMod (if z <? 0 then z + p2e else z) p p2e in
  (<[j := z]> (fst xy), <[j := fold_centered p2e y0]> (snd xy)).

(** The vectors [x] and [y] as they stand when the loop is over. *)
Definition digitTable (p e : Z) : list Z * list Z :=
  let p2e := power_long p e in
  let n := Z.to_nat p in
  fold_left (table_step p p2e (- (p ÷ 2))) (seq 0 n)
            (replicate n 0, replicate n 0).

(** [buildDigitPolynomial(result, p, e)].  [result] is passed by reference:
    the function returns its final content, or [None] when the
    assertion on the degree fails. *)
Definition buildDigitPolynomial (result : ZZX) (p e : Z) : option ZZX :=
  if (p <? 2) || (e <=? 1) then Some result
  else
    let xy := digitTable p e in
    let result := interpolateMod (fst xy) (snd xy) p e in
    if ZZX.deg result <? p then Some (ZZX.SetCoeff result p) else None.

(** Abscissa and ordinate number [j], as [table_step] computes them. *)
Definition table_x (p : Z) (j : nat) : Z := - (p ÷ 2) + Z.of_nat j.

Definition table_y (p e : Z) (j : nat) : Z :=
  let p2e := power_long p e in
  let z := table_x p j in
  fold_centered p2e (z - PowerMod (if z <? 0 then z + p2e else z) p p2e).


(** Abscissae fit for interpolation modulo [m]: the difference of any two
    of them is invertible. *)
Fixpoint good_nodes (m : Z) (xs : list Z) : Prop :=
  match xs with
  | [] => True
  | x :: xs' => Forall (fun x' => Z.coprime (x' - x) m) xs' /\ good_nodes m xs'
  end.

(** ** The ciphertext interface *)

(** What [extractDigits] asks of a ciphertext.  The class [Ctxt] and
    [polyEval] are collaborators of the routine; the routine is written
    against this interface and the properties of its control flow hold for
    every implementation of it. *)
Class CtxtOps (Ctxt : Type) : Type := {
  (** [c.getContext().zMStar.getP()] *)
  getP : Ctxt -> Z;
  (** [c.effectiveR()] *)
  effectiveR : Ctxt -> Z;
  (** [Ctxt(c.getPubKey(), c.getPtxtSpace())]: an empty ciphertext *)
  emptyLike : Ctxt -> Ctxt;
  (** [x.square()] and [x.cube()], as functions of the old value *)
  square : Ctxt -> Ctxt;
  cube : Ctxt -> Ctxt;
  (** [polyEval(ret, poly, x)], as a function of [poly] and [x] *)
  polyEval : ZZX -> Ctxt -> Ctxt;
  (** [x -= y] *)
  sub : Ctxt -> Ctxt -> Ctxt;
  (** [x.divideByP()] *)
  divideByP : Ctxt -> Ctxt
}.

(** Calls made by [extractDigits], in the order they are made.  The log is
    bookkeeping of the model: the routine itself keeps none. *)
Inductive Event : Type :=
| EvBuild (p e : Z)
| EvPolyEval (poly : ZZX).

(** ** [extractDigits] *)

Section Extractor.

Context {Ctxt : Type} `{CtxtOps Ctxt}.

(** The variables of one call: the object that the argument [c] (a
    [const] reference) names, the locals [tmp] and [w], the output vector
    [digits].  The steps below are those of a call in which [c] names no
    element of [digits]; [sync] further down adds what a write to [digits]
    does to [c] when it names one. *)
Record Frame : Type := mkFrame {
  fr_c : Ctxt;
  fr_tmp : Ctxt;
  fr_w : list Ctxt;
  fr_digits : list Ctxt;
  fr_log : list Event
}.

(** The operation standing for the [p]-th power. *)
Definition pthPower (p : Z) (x2p : ZZX) (x : Ctxt) : Ctxt :=
  if p =? 2 then square x
  else if p =? 3 then cube x
  else polyEval x2p x.

(** The body of the loop over [j]. *)
Definition peel (p : Z) (x2p : ZZX) (st : Frame) (j : nat) : Frame :=
  match fr_w st !! j with
  | None => st
  | Some wj =>
      let wj' := pthPower p x2p wj in
      {| fr_c := fr_c st;
         fr_tmp := divideByP (sub (fr_tmp st) wj');
         fr_w := <[j := wj']> (fr_w st);
         fr_digits := fr_digits st;
         fr_log := if (p =? 2) || (p =? 3) then fr_log st
                   else fr_log st ++ [EvPolyEval x2p] |}
  end.

(** [tmp = c;] *)
Definition reload (st : Frame) : Frame :=
  {| fr_c := fr_c st; fr_tmp := fr_c st; fr_w := fr_w st;
     fr_digits := fr_digits st; fr_log := fr_log st |}.

(** [w[i] = tmp; if (shortCut) digits[i] = tmp;] *)
Definition store (shortCut : bool) (st : Frame) (i : nat) : Frame :=
  {| fr_c := fr_c st;
     fr_tmp := fr_tmp st;
     fr_w := <[i := fr_tmp st]> (fr_w st);
     fr_digits := if shortCut then <[i := fr_tmp st]> (fr_digits st)
                  else fr_digits st;
     fr_log := fr_log st |}.

(** The body of the loop over [i]. *)
Definition round (p : Z) (x2p : ZZX) (shortCut : bool)
           (st : Frame) (i : nat) : Frame :=
  store shortCut (fold_left (peel p x2p) (seq 0 i) (reload st)) i.

(** The body of the closing loop [digits[i] = w[i]]. *)
Definition copy_back (st : Frame) (i : nat) : Frame :=
  match fr_w st !! i with
  | None => st
  | Some wi =>
      {| fr_c := fr_c st; fr_tmp := fr_tmp st; fr_w := fr_w st;
         fr_digits := <[i := wi]> (fr_digits st); fr_log := fr_log st |}
  end.

(** [if (r<=0 || r>rr) r = rr;] *)
Definition clamp (c : Ctxt) (r : Z) : Z :=
  let rr := effectiveR c in
  if (r <=? 0) || (r >? rr) then rr else r.

(** [ZZX x2p; if (p>3) buildDigitPolynomial(x2p, p, r);] *)
Definition digitPoly (p r : Z) : option ZZX :=
  if p >? 3 then buildDigitPolynomial [] p r else Some [].

(** The frame when the loop over [i] is entered:
    [Ctxt tmp(c.getPubKey(), c.getPtxtSpace()); digits.resize(r, tmp);
     vector<Ctxt> w(r, tmp);] *)
Definition frame0 (digits : list Ctxt) (c : Ctxt) (p r : Z) : Frame :=
  let tmp := emptyLike c in
  let n := Z.to_nat r in
  {| fr_c := c; fr_tmp := tmp;
     fr_w := replicate n tmp;
     fr_digits := resize n tmp digits;
     fr_log := if p >? 3 then [EvBuild p r] else [] |}.

(** The whole routine, from the vector [digits] it is handed and its
    arguments to the frame it ends in.  [None] stands for a run that does
    not return: the builder's assertion fails, or the vectors are asked to
    take a negative size. *)
Definition extractDigits_run (digits : list Ctxt) (c : Ctxt) (r : Z)
           (shortCut : bool) : option Frame :=
  let r := clamp c r in
  let p := getP c in
  match digitPoly p r with
  | None => None
  | Some x2p =>
      if r <? 0 then None
      else
        let n := Z.to_nat r in
        let st := fold_left (round p x2p shortCut) (seq 0 n)
                            (frame0 digits c p r) in
        Some (if shortCut then st
              else fold_left copy_back (seq 0 n) st)
  end.

(** The content of [digits] when the routine returns. *)
Definition extractDigits (digits : list Ctxt) (c : Ctxt) (r : Z)
           (shortCut : bool) : option (list Ctxt) :=
  option_map fr_digits (extractDigits_run digits c r shortCut).

(** *** Loop invariants *)

(** Two frames that agree on everything but [digits].  The loops over
    [i] and [j] neither read [digits] nor let it bear on the other
    variables. *)
Definition same_locals (st st' : Frame) : Prop :=
  fr_c st = fr_c st' /\ fr_tmp st = fr_tmp st' /\ fr_w st = fr_w st' /\
  fr_log st = fr_log st'.

(** After [k] rounds in shortcut mode, [digits[j]] holds the residue that
    round [j] left in [tmp], and [w[j]] holds that residue raised
    [k - 1 - j] times. *)
Definition rounds_inv (p : Z) (x2p : ZZX) (c : Ctxt) (n k : nat)
           (st : Frame) : Prop :=
  fr_c st = c /\ length (fr_w st) = n /\ length (fr_digits st) = n /\
  forall j : nat, (j < k)%nat ->
    exists t, fr_digits st !! j = Some t /\
              fr_w st !! j = Some (Nat.iter (k - 1 - j) (pthPower p x2p) t).

End Extractor.

Arguments Frame Ctxt : clear implicits.

(** ** A plaintext simulation of ciphertexts *)

(** Modelled from the spec: the scheme-wide parameters a ciphertext reaches
    through its context, which is not among the sources at hand.  The spec
    names the prime [p] and speaks of levels as a budget that the
    operations consume; what the power operation, a subtraction and a
    division by [p] cost is kept as three parameters of the scheme. *)
Record FHEcontext : Type := mkContext {
  zMStar_P : Z;
  levels_pow : Z;
  levels_sub : Z;
  levels_div : Z
}.

(** Modelled from the spec: the class [Ctxt] is not among the sources at
    hand.  In the spec's words a ciphertext encrypts a vector of slot
    integers, each reduced modulo [p^R], where [R] is the effective digit
    count its metadata reports, and it sits at a level.  The simulation
    keeps the decrypted slots themselves. *)
Record PCtxt : Type := mkPCtxt {
  context : FHEcontext;
  effR : Z;
  level : Z;
  slots : list Z
}.

(** Modelled from the spec: the plaintext modulus [p^R] of a ciphertext
    of capacity [R]. *)
Definition ptxtSpace (c : PCtxt) : Z := zMStar_P (context c) ^ effR c.

(** Modelled from the spec: a slot-wise operation that keeps the plaintext
    modulus and consumes [cost] levels. *)
Definition slotwise (f : Z -> Z) (cost : Z) (c : PCtxt) : PCtxt :=
  {| context := context c;
     effR := effR c;
     level := level c - cost;
     slots := map (fun v => f v mod ptxtSpace c) (slots c) |}.

(** Modelled from the spec: squaring, cubing and polynomial evaluation act
    on every slot. *)
Definition plain_square (c : PCtxt) : PCtxt :=
  slotwise (fun v => v * v) (levels_pow (context c)) c.

Definition plain_cube (c : PCtxt) : PCtxt :=
  slotwise (fun v => v * v * v) (levels_pow (context c)) c.

Definition plain_polyEval (poly : ZZX) (c : PCtxt) : PCtxt :=
  slotwise (ZZX.eval poly) (levels_pow (context c)) c.

(** Modelled from the spec: subtraction, slot by slot.  The difference of
    a value known modulo [p^a] and one known modulo [p^b] is known modulo
    the smaller of the two; the operands are brought to the lower of their
    levels. *)
Definition plain_sub (a b : PCtxt) : PCtxt :=
  let R := Z.min (effR a) (effR b) in
  {| context := context a;
     effR := R;
     level := Z.min (level a) (level b) - levels_sub (context a);
     slots := zip_with (fun x y => (x - y) mod zMStar_P (context a) ^ R)
                       (slots a) (slots b) |}.

(** Modelled from the spec: the operation that divides all slots by [p]
    and drops levels, [levels_div] of them; a digit of capacity goes with
    the division. *)
Definition plain_divideByP (c : PCtxt) : PCtxt :=
  {| context := context c;
     effR := effR c - 1;
     level := level c - levels_div (context c);
     slots := map (fun v => v / zMStar_P (context c)) (slots c) |}.

(** Modelled from the spec: an empty ciphertext for the same key and
    plaintext modulus.  [extractDigits] overwrites every copy of it before
    reading it. *)
Definition plain_emptyLike (c : PCtxt) : PCtxt :=
  {| context := context c; effR := effR c; level := level c;
     slots := map (fun _ => 0) (slots c) |}.

#[export] Instance PlainOps : CtxtOps PCtxt := {|
  getP := fun c => zMStar_P (context c);
  effectiveR := effR;
  emptyLike := plain_emptyLike;
  square := plain_square;
  cube := plain_cube;
  polyEval := plain_polyEval;
  sub := plain_sub;
  divideByP := plain_divideByP
|}.

(** ** Digits *)

(** The [j]-th lowest digit of [z] in base [p], digits in [[0, p)]. *)
Definition baseDigit (p z : Z) (j : nat) : Z := (z / p ^ Z.of_nat j) mod p.

(** The representative of [v] modulo [p] that the power operation fixes:
    [0] or [1] for [p = 2], the centred residue otherwise. *)
Definition digitRep (p v : Z) : Z :=
  if p =? 2 then v mod 2 else (v + p / 2) mod p - p / 2.

(** What is left of [z] once its [j] lowest digits are peeled off. *)
Fixpoint residue (p : Z) (j : nat) (z : Z) : Z :=
  match j with
  | O => z
  | S j' => let u := residue p j' z in (u - digitRep p u) / p
  end.

(** The [j]-th digit that the peeling yields. *)
Definition peeledDigit (p z : Z) (j : nat) : Z := digitRep p (residue p j z).

(** The integer that the [n] lowest peeled digits of [z] spell. *)
Fixpoint digitSum (p z : Z) (n : nat) : Z :=
  match n with
  | O => 0
  | S n' => digitSum p z n' + peeledDigit p z n' * p ^ Z.of_nat n'
  end.

(** The value of the power operation on one slot. *)
Definition powValue (p : Z) (x2p : ZZX) (v : Z) : Z :=
  if p =? 2 then v * v
  else if p =? 3 then v * v * v
  else ZZX.eval x2p v.

(** Slot by slot, [c] holds the values [f z] up to multiples of [m], [z]
    ranging over the slots [zs] of the input. *)
Definition agrees (m : Z) (f : Z -> Z) (zs : list Z) (c : PCtxt) : Prop :=
  Forall2 (fun v z => (m | v - f z)) (slots c) zs.

(** A ciphertext of the scheme [ctx] with capacity [R] at level [L] that
    holds [f] up to multiples of [m]. *)
Definition holds (ctx : FHEcontext) (R L m : Z) (f : Z -> Z) (zs : list Z)
           (c : PCtxt) : Prop :=
  context c = ctx /\ effR c = R /\ level c = L /\ agrees m f zs c.

(** Modelled from the spec: a scheme is set up for a prime [p], and no
    operation gives levels back. *)
Definition wf_context (ctx : FHEcontext) : Prop :=
  Z.prime (zMStar_P ctx) /\
  0 <= levels_pow ctx /\ 0 <= levels_sub ctx /\ 0 <= levels_div ctx.

(** The level at which round [j] leaves [tmp], for an input at level [L]. *)
Definition digit_level (ctx : FHEcontext) (L : Z) (j : nat) : Z :=
  L - Z.of_nat j * (levels_pow ctx + levels_sub ctx + levels_div ctx).

(** The level of [tmp] in round [i], after [k] turns of the loop over [j]. *)
Definition tmp_level (ctx : FHEcontext) (L : Z) (i k : nat) : Z :=
  match k with
  | O => L
  | S _ => L - Z.of_nat i * levels_pow ctx
           - Z.of_nat k * (levels_sub ctx + levels_div ctx)
  end.

(** What round [j] leaves in [tmp]: the digit [j] of every slot, modulo
    [p], in a ciphertext of capacity [R - j]. *)
Definition is_digit (ctx : FHEcontext) (R L : Z) (zs : list Z) (j : nat)
           (t : PCtxt) : Prop :=
  holds ctx (R - Z.of_nat j) (digit_level ctx L j) (zMStar_P ctx)
        (fun z => peeledDigit (zMStar_P ctx) z j) zs t.

(** ** Sample inputs *)

(** A scheme with [p = 5] in which each operation costs one level, and a
    ciphertext of capacity three at level ten. *)
Definition ctx5 : FHEcontext := mkContext 5 1 1 1.

Definition sample5 : PCtxt := mkPCtxt ctx5 3 10 [7; 99; 0].

(** A ciphertext of capacity one. *)
Definition single5 : PCtxt := mkPCtxt ctx5 1 10 [3].

(** [p = 3], capacity two, the slot holds [2]. *)
Definition sample3 : PCtxt := mkPCtxt (mkContext 3 1 1 1) 2 10 [2].

(** [p = 2], capacity two. *)
Definition sample2 : PCtxt := mkPCtxt (mkContext 2 1 1 1) 2 10 [3].

(** ** The outputs as a recursion on the input *)

Section Residues.

Context {Ctxt : Type} `{CtxtOps Ctxt}.

(** One peeling step of round [i], told in terms of the residues [ts] that
    the earlier rounds produced: the residue of round [j] has been raised
    [i - j] times when it is subtracted. *)
Definition peelStep (p : Z) (x2p : ZZX) (i : nat) (ts : list Ctxt)
           (tmp : Ctxt) (j : nat) : Ctxt :=
  match ts !! j with
  | Some t => divideByP (sub tmp (Nat.iter (i - j) (pthPower p x2p) t))
  | None => tmp
  end.

(** The residue of round [i]. *)
Definition peelAll (p : Z) (x2p : ZZX) (c : Ctxt) (i : nat)
           (ts : list Ctxt) : Ctxt :=
  fold_left (peelStep p x2p i ts) (seq 0 i) c.

(** The residues of the first [k] rounds. *)
Fixpoint residues (p : Z) (x2p : ZZX) (c : Ctxt) (k : nat) : list Ctxt :=
  match k with
  | O => []
  | S k' => let ts := residues p x2p c k' in ts ++ [peelAll p x2p c k' ts]
  end.

(** The residues, each raised as often as it is by the end of [n] rounds. *)
Definition raised (p : Z) (x2p : ZZX) (n : nat) (ts : list Ctxt)
  : list Ctxt :=
  imap (fun j t => Nat.iter (n - 1 - j) (pthPower p x2p) t) ts.

End Residues.

(** The argument that the table loop hands to [PowerMod]. *)
Definition PowerMod_arg (p2e z : Z) : Z := if z <? 0 then z + p2e else z.

(** ** The argument [c] as a reference *)

(** [c] is handed over as [const Ctxt&]: the routine never writes through
    it, but the object it names may be one that the routine writes under
    another name.  The locals [tmp] and [w] are made by the call itself,
    so the only such object is an element of the caller's vector
    [digits]. *)
Inductive InputRef (Ctxt : Type) : Type :=
| External (c : Ctxt)
| Element (k : nat).

Arguments External {Ctxt} c.
Arguments Element {Ctxt} k.

Section Aliasing.

Context {Ctxt : Type} `{CtxtOps Ctxt}.

(** The object that [c] names when the routine is entered. *)
Definition deref (ref : InputRef Ctxt) (digits : list Ctxt) : option Ctxt :=
  match ref with
  | External c => Some c
  | Element k => digits !! k
  end.

(** [digits.resize(r, tmp)] keeps a reference to [digits[k]] good when the
    vector does not grow, which may move its elements, and keeps its
    element [k]. *)
Definition stays_valid (ref : InputRef Ctxt) (n : nat)
           (digits : list Ctxt) : bool :=
  match ref with
  | External _ => true
  | Element k => (k <? n)%nat && (n <=? length digits)%nat
  end.

(** In a frame, [fr_c] is the present value of the object that [c] names.
    After a write to [digits] an argument that names [digits[k]] reads
    what [digits[k]] holds. *)
Definition sync (ref : InputRef Ctxt) (st : Frame Ctxt) : Frame Ctxt :=
  match ref with
  | External _ => st
  | Element k =>
      match fr_digits st !! k with
      | None => st
      | Some v =>
          {| fr_c := v; fr_tmp := fr_tmp st; fr_w := fr_w st;
             fr_digits := fr_digits st; fr_log := fr_log st |}
      end
  end.

(** The body of the loop over [i]: [tmp = c] reads the object at the
    start, [digits[i] = tmp] may write it at the end. *)
Definition round_ref (ref : InputRef Ctxt) (p : Z) (x2p : ZZX)
           (shortCut : bool) (st : Frame Ctxt) (i : nat) : Frame Ctxt :=
  sync ref (round p x2p shortCut st i).

(** The body of the closing loop [digits[i] = w[i]]. *)
Definition copy_back_ref (ref : InputRef Ctxt) (st : Frame Ctxt)
           (i : nat) : Frame Ctxt :=
  sync ref (copy_back st i).

(** The whole routine for an argument [c] given as a reference.  [None]
    stands for a run that does not return, and for a call that the
    language leaves undefined: [c] names no object, or the resize leaves
    it dangling. *)
Definition extractDigits_ref (ref : InputRef Ctxt) (digits : list Ctxt)
           (r : Z) (shortCut : bool) : option (Frame Ctxt) :=
  match deref ref digits with
  | None => None
  | Some c =>
      let r := clamp c r in
      let p := getP c in
      match digitPoly p r with
      | None => None
      | Some x2p =>
          if r <? 0 then None
          else
            let n := Z.to_nat r in
            if negb (stays_valid ref n digits) then None
            else
              let st := fold_left (round_ref ref p x2p shortCut) (seq 0 n)
                                  (frame0 digits c p r) in
              Some (if shortCut then st
                    else fold_left (copy_back_ref ref) (seq 0 n) st)
      end
  end.

End Aliasing.

(** ** A scheme in which only the power operation consumes levels *)

(** [p = 5]; squaring, cubing and polynomial evaluation cost one level,
    subtraction and division by [p] none: the accounting under which the
    outputs without the shortcut are "all at the same level", as the
    comment above [extractDigits] has it. *)
Definition ctx5_pow : FHEcontext := mkContext 5 1 0 0.

Definition sample5_pow : PCtxt := mkPCtxt ctx5_pow 3 10 [7; 99; 0].
(** * Properties of the builder *)

(** ** The folding loops *)

Lemma while_above_spec (fuel : nat) (h m y : Z) :
  0 < m -> (y - h) / m + 1 <= Z.of_nat fuel ->
  let r := while_above fuel h m y in
  r <= h /\ (y <= h -> r = y) /\ (h < y -> h - m < r) /\ r mod m = y mod m.
Proof.
  intros Hm. revert y. induction fuel as [|fuel IH]; intros y Hfuel; cbn zeta.
  - simpl. assert ((y - h) / m < 0) by lia.
    pose proof (Z.div_pos (y - h) m). lia.
  - simpl. destruct (Z.gtb_spec y h) as [Hgt|Hle]; [|lia].
    assert (Hdiv : (y - m - h) / m = (y - h) / m - 1).
    { replace (y - m - h) with ((y - h) + (-1) * m) by ring.
      rewrite Z.div_add by lia. ring. }
    destruct (IH (y - m)) as (H1 & H2 & H3 & H4); [lia|].
    repeat split; [assumption|lia| |].
    + intros _. destruct (Z_le_gt_dec (y - m) h) as [Hs|Hs].
      * rewrite (H2 Hs). lia.
      * specialize (H3 ltac:(lia)). lia.
    + rewrite H4. replace (y - m) with (y + (-1) * m) by ring.
      apply Z.mod_add. lia.
Qed.

Lemma while_below_spec (fuel : nat) (l m y : Z) :
  0 < m -> (l - y) / m + 1 <= Z.of_nat fuel ->
  let r := while_below fuel l m y in
  l <= r /\ (l <= y -> r = y) /\ (y < l -> r < l + m) /\ r mod m = y mod m.
Proof.
  intros Hm. revert y. induction fuel as [|fuel IH]; intros y Hfuel; cbn zeta.
  - simpl. assert ((l - y) / m < 0) by lia.
    pose proof (Z.div_pos (l - y) m). lia.
  - simpl. destruct (Z.ltb_spec y l) as [Hlt|Hge]; [|lia].
    assert (Hdiv : (l - (y + m)) / m = (l - y) / m - 1).
    { replace (l - (y + m)) with ((l - y) + (-1) * m) by ring.
      rewrite Z.div_add by lia. ring. }
    destruct (IH (y + m)) as (H1 & H2 & H3 & H4); [lia|].
    repeat split; [assumption|lia| |].
    + intros _. destruct (Z_le_gt_dec l (y + m)) as [Hs|Hs].
      * rewrite (H2 Hs). lia.
      * specialize (H3 ltac:(lia)). lia.
    + rewrite H4. replace (y + m) with (y + 1 * m) by ring.
      apply Z.mod_add. lia.
Qed.

(** Both loops run to their exit test: the result lies between
    [-(p2e/2)] and [p2e/2] and is congruent to the value they started from. *)
Lemma fold_centered_spec (p2e y : Z) :
  0 < p2e ->
  let r := fold_centered p2e y in
  - (p2e ÷ 2) <= r <= p2e ÷ 2 /\ r mod p2e = y mod p2e.
Proof.
  intros Hm. unfold fold_centered. cbn zeta.
  set (h := p2e ÷ 2).
  assert (Hh : h = p2e / 2) by (apply Z.quot_div_nonneg; lia).
  assert (Hh2 : p2e - 1 <= 2 * h <= p2e).
  { rewrite Hh. pose proof (Z.div_mod p2e 2 ltac:(lia)).
    pose proof (Z.mod_pos_bound p2e 2 ltac:(lia)). lia. }
  destruct (while_above_spec (Z.to_nat ((y - h) / p2e + 1)) h p2e y Hm ltac:(lia))
    as (A1 & A2 & A3 & A4).
  set (y1 := while_above _ h p2e y) in *.
  destruct (while_below_spec (Z.to_nat ((- h - y1) / p2e + 1)) (- h) p2e y1 Hm
              ltac:(lia)) as (B1 & B2 & B3 & B4).
  set (y2 := while_below _ (- h) p2e y1) in *.
  split; [split; [assumption|]|congruence].
  destruct (Z_le_gt_dec (- h) y1) as [Hs|Hs].
  - rewrite (B2 Hs). assumption.
  - specialize (B3 ltac:(lia)). lia.
Qed.

(** ** The interpolation table *)

Lemma fold_insert_seq {A : Type} (f g : nat -> A) (d : A) (n k : nat) :
  (k <= n)%nat ->
  fold_left (fun (xy : list A * list A) j =>
               (<[j := f j]> (fst xy), <[j := g j]> (snd xy)))
            (seq 0 k) (replicate n d, replicate n d)
  = (map f (seq 0 k) ++ replicate (n - k) d,
     map g (seq 0 k) ++ replicate (n - k) d).
Proof.
  induction k as [|k IH]; intros Hk.
  - simpl. rewrite Nat.sub_0_r. reflexivity.
  - rewrite seq_S, fold_left_app, IH by lia. simpl.
    replace (n - k)%nat with (S (n - S k)) by lia. simpl.
    rewrite !map_app. simpl.
    rewrite !insert_app_r_alt by (rewrite length_map, length_seq; lia).
    rewrite !length_map, !length_seq, Nat.sub_diag. simpl.
    rewrite <- !app_assoc. reflexivity.
Qed.

Lemma digitTable_eq (p e : Z) :
  digitTable p e =
  (map (table_x p) (seq 0 (Z.to_nat p)), map (table_y p e) (seq 0 (Z.to_nat p))).
Proof.
  unfold digitTable. cbn zeta.
  pose proof (fold_insert_seq (table_x p) (table_y p e) 0 (Z.to_nat p)
                (Z.to_nat p) (Nat.le_refl _)) as H.
  rewrite Nat.sub_diag in H. simpl in H. rewrite !app_nil_r in H.
  exact H.
Qed.

Lemma digitTable_lookup (p e : Z) (j : nat) :
  (j < Z.to_nat p)%nat ->
  fst (digitTable p e) !! j = Some (table_x p j) /\
  snd (digitTable p e) !! j = Some (table_y p e j).
Proof.
  intros Hj. rewrite digitTable_eq. simpl.
  rewrite !list_lookup_fmap.
  rewrite lookup_seq_lt by assumption. split; reflexivity.
Qed.

Lemma power_long_pos (p e : Z) : 2 <= p -> 0 <= e -> 0 < power_long p e.
Proof. intros. unfold power_long. apply Z.pow_pos_nonneg; lia. Qed.

(** The ordinate is [z - z^p] modulo [p^e], whatever the sign of [z]. *)
Lemma table_y_cong (p e : Z) (j : nat) :
  2 <= p -> 0 <= e ->
  table_y p e j mod p ^ e = (table_x p j - table_x p j ^ p) mod p ^ e.
Proof.
  intros Hp He. unfold table_y. cbn zeta.
  pose proof (power_long_pos p e Hp He) as Hpos.
  destruct (fold_centered_spec (power_long p e)
    (table_x p j - PowerMod (if table_x p j <? 0
                             then table_x p j + power_long p e
                             else table_x p j) p (power_long p e)) Hpos)
    as [_ Hc].
  unfold power_long in *. rewrite Hc. unfold PowerMod.
  rewrite Zminus_mod_idemp_r.
  destruct (table_x p j <? 0); [|reflexivity].
  rewrite <- (Zminus_mod_idemp_r _ ((table_x p j + p ^ e) ^ p)).
  rewrite <- (Z.mod_pow_l (table_x p j + p ^ e)).
  replace (table_x p j + p ^ e) with (table_x p j + 1 * p ^ e) by ring.
  rewrite Z.mod_add by lia.
  rewrite Z.mod_pow_l, Zminus_mod_idemp_r. reflexivity.
Qed.

Lemma table_y_range (p e : Z) (j : nat) :
  2 <= p -> 0 <= e ->
  - (p ^ e / 2) <= table_y p e j <= p ^ e / 2.
Proof.
  intros Hp He. unfold table_y. cbn zeta.
  pose proof (power_long_pos p e Hp He) as Hpos.
  match goal with |- _ <= fold_centered ?m ?y <= _ =>
    destruct (fold_centered_spec m y Hpos) as [Hr _] end.
  unfold power_long in *.
  rewrite Z.quot_div_nonneg in Hr by lia. exact Hr.
Qed.

Lemma table_x_distinct (p : Z) (j k : nat) :
  (j < Z.to_nat p)%nat -> (k < Z.to_nat p)%nat ->
  table_x p j mod p = table_x p k mod p -> j = k.
Proof.
  intros Hj Hk H. unfold table_x in H.
  assert (Hp : 0 < p) by lia.
  rewrite <- (Zplus_mod_idemp_r (Z.of_nat j)) in H.
  rewrite <- (Zplus_mod_idemp_r (Z.of_nat k)) in H.
  rewrite !(Z.mod_small (Z.of_nat _) p) in H by lia.
  assert (Hd : (Z.of_nat j - Z.of_nat k) mod p = 0).
  { replace (Z.of_nat j - Z.of_nat k)
      with ((- (p ÷ 2) + Z.of_nat j) - (- (p ÷ 2) + Z.of_nat k)) by ring.
    rewrite Zminus_mod, H, Z.sub_diag. apply Z.mod_0_l. lia. }
  apply Z.mod_divide in Hd; [|lia]. destruct Hd as [q Hq].
  assert (q = 0) by nia. lia.
Qed.

Lemma table_x_covers (p a : Z) :
  2 <= p ->
  exists j, (j < Z.to_nat p)%nat /\ table_x p j mod p = a mod p.
Proof.
  intros Hp. exists (Z.to_nat ((a + p ÷ 2) mod p)).
  pose proof (Z.mod_pos_bound (a + p ÷ 2) p ltac:(lia)).
  split; [lia|]. unfold table_x. rewrite Z2Nat.id by lia.
  rewrite Zplus_mod_idemp_r. f_equal. ring.
Qed.

(** ** Degrees *)

Lemma normalize_length_le (f : list Z) :
  (length (ZZX.normalize f) <= length f)%nat.
Proof.
  induction f as [|c f IH]; simpl; [lia|].
  destruct (ZZX.normalize f); [destruct (c =? 0)|]; simpl in *; lia.
Qed.

Lemma normalize_snoc (f : list Z) (c : Z) :
  c <> 0 -> ZZX.normalize (f ++ [c]) = f ++ [c].
Proof.
  intros Hc. induction f as [|a f IH]; simpl.
  - destruct (Z.eqb_spec c 0); [contradiction|reflexivity].
  - rewrite IH. destruct (f ++ [c]) eqn:E; [|reflexivity].
    destruct f; discriminate.
Qed.

Lemma eval_normalize (f : list Z) (z : Z) :
  ZZX.eval (ZZX.normalize f) z = ZZX.eval f z.
Proof.
  induction f as [|c f IH]; simpl; [reflexivity|].
  destruct (ZZX.normalize f) eqn:E.
  - rewrite <- IH. simpl.
    destruct (Z.eqb_spec c 0); simpl; lia.
  - simpl. simpl in IH. rewrite IH. reflexivity.
Qed.

Lemma add_length (f g : ZZX) :
  length (ZZX.add f g) = Nat.max (length f) (length g).
Proof.
  revert g. induction f as [|a f IH]; intros [|b g]; simpl; auto.
Qed.

Lemma scale_length (c : Z) (f : ZZX) : length (ZZX.scale c f) = length f.
Proof. apply length_map. Qed.

Lemma mul_linear_length (a : Z) (f : ZZX) :
  length (ZZX.mul_linear a f) = S (length f).
Proof.
  unfold ZZX.mul_linear. rewrite add_length, scale_length. simpl. lia.
Qed.

Lemma newton_length (m : Z) (pts : list (Z * Z)) (P N : ZZX) (k : nat) :
  (length P <= k)%nat -> length N = S k ->
  (length (newton m pts P N) <= k + length pts)%nat.
Proof.
  revert P N k. induction pts as [|[x y] pts IH]; intros P N k HP HN; simpl.
  - lia.
  - specialize (IH (ZZX.add P (ZZX.scale
        (((y - ZZX.eval P x) * Z.invmod (ZZX.eval N x) m) mod m) N))
        (ZZX.mul_linear x N) (S k)).
    rewrite add_length, scale_length, mul_linear_length in IH.
    specialize (IH ltac:(lia) ltac:(lia)). lia.
Qed.

(** The interpolant of [n] points has degree below [n]. *)
Lemma interpolateMod_deg (x y : list Z) (p e : Z) :
  ZZX.deg (interpolateMod x y p e) < Z.of_nat (Nat.min (length x) (length y)).
Proof.
  unfold interpolateMod, ZZX.deg. cbn zeta.
  set (f := ZZX.reduce _ _).
  assert (length f <= Nat.min (length x) (length y))%nat.
  { unfold f, ZZX.reduce. rewrite length_map.
    pose proof (newton_length (power_long p e) (zip x y) [] [1] 0
                  (Nat.le_0_l _) eq_refl) as H.
    rewrite length_zip in H. exact H. }
  pose proof (normalize_length_le f).
  pose proof (normalize_length_le (ZZX.normalize f)). lia.
Qed.

Lemma digitTable_length (p e : Z) :
  length (fst (digitTable p e)) = Z.to_nat p /\
  length (snd (digitTable p e)) = Z.to_nat p.
Proof.
  rewrite digitTable_eq. simpl. rewrite !length_map, !length_seq. auto.
Qed.

Lemma SetCoeff_shape (f : ZZX) (i : Z) :
  (length (ZZX.normalize f) <= Z.to_nat i)%nat ->
  ZZX.SetCoeff f i =
  ZZX.normalize f ++ replicate (Z.to_nat i - length (ZZX.normalize f)) 0 ++ [1].
Proof.
  intros Hlen. unfold ZZX.SetCoeff. cbn zeta.
  set (g := ZZX.normalize f) in *. set (k := Z.to_nat i) in *.
  replace (S k - length g)%nat with (S (k - length g)) by lia.
  rewrite replicate_S_end.
  rewrite insert_app_r_alt by lia.
  rewrite insert_app_r_alt by (rewrite length_replicate; lia).
  rewrite length_replicate.
  replace (k - length g - (k - length g))%nat with 0%nat by lia. simpl.
  rewrite !app_assoc. apply normalize_snoc. discriminate.
Qed.

Lemma SetCoeff_monic (f : ZZX) (i : Z) :
  0 <= i -> ZZX.deg f < i ->
  ZZX.deg (ZZX.SetCoeff f i) = i /\ ZZX.LeadCoeff (ZZX.SetCoeff f i) = 1.
Proof.
  intros Hi Hdeg. unfold ZZX.deg in Hdeg.
  rewrite SetCoeff_shape by lia.
  unfold ZZX.deg, ZZX.LeadCoeff.
  rewrite !app_assoc, normalize_snoc by discriminate.
  rewrite List.last_last. split; [|reflexivity].
  rewrite length_app, length_app, length_replicate. simpl. lia.
Qed.

(** * Properties of the control flow of [extractDigits] *)

(** Induction over a counted loop [for (k = 0; k < n; k++)]. *)
Lemma fold_left_seq_ind {A : Type} (f : A -> nat -> A) (P : nat -> A -> Prop)
      (n : nat) (a : A) :
  P 0%nat a ->
  (forall k a', (k < n)%nat -> P k a' -> P (S k) (f a' k)) ->
  P n (fold_left f (seq 0 n) a).
Proof.
  intros H0 Hstep. induction n as [|n IH].
  - exact H0.
  - rewrite seq_S, fold_left_app. simpl. apply Hstep; [lia|].
    apply IH. intros k a' Hk. apply Hstep. lia.
Qed.

Section ExtractorFacts.

Context {Ctxt : Type} `{CtxtOps Ctxt}.

Implicit Types (st : Frame Ctxt) (c : Ctxt) (p r : Z) (x2p : ZZX).

(** The builder returns for all arguments: its assertion never fails. *)
Lemma buildDigitPolynomial_returns (result : ZZX) p e :
  exists f, buildDigitPolynomial result p e = Some f.
Proof.
  unfold buildDigitPolynomial.
  destruct ((p <? 2) || (e <=? 1)) eqn:E; [eauto|].
  cbn zeta.
  pose proof (interpolateMod_deg (fst (digitTable p e)) (snd (digitTable p e))
                p e) as Hd.
  destruct (digitTable_length p e) as [E1 E2].
  rewrite E1, E2, Nat.min_id in Hd.
  apply orb_false_iff in E. destruct E as [E _].
  apply Z.ltb_ge in E. rewrite Z2Nat.id in Hd by lia.
  apply Z.ltb_lt in Hd. rewrite Hd. eauto.
Qed.

Lemma digitPoly_returns p r : exists x2p, digitPoly p r = Some x2p.
Proof.
  unfold digitPoly. destruct (p >? 3); [|eauto].
  apply buildDigitPolynomial_returns.
Qed.

Lemma clamp_out_of_range c r :
  r <= 0 \/ r > effectiveR c -> clamp c r = effectiveR c.
Proof.
  intros Hr. unfold clamp. cbn zeta.
  destruct (Z.leb_spec r 0); [reflexivity|].
  destruct (Z.gtb_spec r (effectiveR c)); [reflexivity|]. lia.
Qed.

Lemma clamp_effectiveR c : clamp c (effectiveR c) = effectiveR c.
Proof.
  unfold clamp. cbn zeta.
  destruct ((effectiveR c <=? 0) || (effectiveR c >? effectiveR c));
    reflexivity.
Qed.

(** *** The loop over [j] *)

Lemma peel_loop p x2p st (i : nat) :
  (i <= length (fr_w st))%nat ->
  let st' := fold_left (peel p x2p) (seq 0 i) st in
  fr_c st' = fr_c st /\
  fr_digits st' = fr_digits st /\
  length (fr_w st') = length (fr_w st) /\
  forall j : nat,
    fr_w st' !! j = if decide (j < i)%nat
                    then pthPower p x2p <$> fr_w st !! j
                    else fr_w st !! j.
Proof.
  intros Hi. cbn zeta.
  pose (P := fun (k : nat) (st' : Frame Ctxt) =>
              fr_c st' = fr_c st /\
              fr_digits st' = fr_digits st /\
              length (fr_w st') = length (fr_w st) /\
              forall j : nat,
                fr_w st' !! j = if decide (j < k)%nat
                                then pthPower p x2p <$> fr_w st !! j
                                else fr_w st !! j).
  apply (fold_left_seq_ind (peel p x2p) P); unfold P.
  - repeat split; try reflexivity.
  - intros k st' Hk (Hc & Hd & Hl & Hw).
    assert (Hlk : fr_w st' !! k = fr_w st !! k).
    { rewrite Hw. destruct (decide (k < k)%nat); [lia|reflexivity]. }
    destruct (lookup_lt_is_Some_2 (fr_w st) k ltac:(lia)) as [wk Hwk].
    unfold peel. rewrite Hlk, Hwk. simpl.
    repeat split; try assumption.
    + rewrite length_insert. assumption.
    + intros j. destruct (decide (j = k)) as [->|Hne].
      * rewrite list_lookup_insert_eq by lia.
        destruct (decide (k < S k)%nat); [|lia]. rewrite Hwk. reflexivity.
      * rewrite list_lookup_insert_ne by congruence. rewrite Hw.
        destruct (decide (j < k)%nat), (decide (j < S k)%nat);
          try reflexivity; lia.
Qed.

Lemma peel_same_locals p x2p st st' (j : nat) :
  same_locals st st' -> same_locals (peel p x2p st j) (peel p x2p st' j).
Proof.
  intros (Hc & Ht & Hw & Hl). unfold peel. rewrite <- Hw.
  destruct (fr_w st !! j); unfold same_locals; simpl;
    rewrite ?Hc, ?Ht, ?Hl; auto.
Qed.

Lemma peel_loop_same_locals p x2p st st' (i : nat) :
  same_locals st st' ->
  same_locals (fold_left (peel p x2p) (seq 0 i) st)
              (fold_left (peel p x2p) (seq 0 i) st').
Proof.
  generalize (seq 0 i). intros l. revert st st'.
  induction l as [|j l IH]; intros st st' Hs; simpl; [assumption|].
  apply IH. apply peel_same_locals. assumption.
Qed.

Lemma round_same_locals p x2p (b b' : bool) st st' (i : nat) :
  same_locals st st' ->
  same_locals (round p x2p b st i) (round p x2p b' st' i).
Proof.
  intros Hs. unfold round.
  assert (Ha : same_locals (fold_left (peel p x2p) (seq 0 i) (reload st))
                           (fold_left (peel p x2p) (seq 0 i) (reload st'))).
  { apply peel_loop_same_locals. destruct Hs as (Hc & Ht & Hw & Hl).
    unfold same_locals, reload. simpl. auto. }
  destruct Ha as (Hc & Ht & Hw & Hl). unfold same_locals, store. simpl.
  rewrite Hc, Ht, Hw, Hl. auto.
Qed.

Lemma rounds_same_locals p x2p (b b' : bool) st st' (n : nat) :
  same_locals st st' ->
  same_locals (fold_left (round p x2p b) (seq 0 n) st)
              (fold_left (round p x2p b') (seq 0 n) st').
Proof.
  generalize (seq 0 n). intros l. revert st st'.
  induction l as [|j l IH]; intros st st' Hs; simpl; [assumption|].
  apply IH. apply round_same_locals. assumption.
Qed.

(** *** The loop over [i] *)

Lemma round_inv p x2p c (n k : nat) st :
  (k < n)%nat -> rounds_inv p x2p c n k st ->
  rounds_inv p x2p c n (S k) (round p x2p true st k).
Proof.
  intros Hk (Hc & Hlw & Hld & Hj). unfold round.
  destruct (peel_loop p x2p (reload st) k ltac:(simpl; lia))
    as (Pc & Pd & Pl & Pw).
  set (st2 := fold_left _ _ _) in *. simpl in Pc, Pd, Pl, Pw.
  unfold rounds_inv, store. simpl. rewrite Pc, Pd, !length_insert, Pl.
  repeat split; try assumption.
  intros j Hjk. destruct (decide (j = k)) as [->|Hne].
  - exists (fr_tmp st2).
    rewrite !list_lookup_insert_eq by lia.
    replace (k - 0 - k)%nat with 0%nat by lia. auto.
  - destruct (Hj j ltac:(lia)) as (t & Ht & Hw).
    exists t. rewrite !list_lookup_insert_ne by congruence.
    split; [assumption|]. rewrite Pw.
    destruct (decide (j < k)%nat); [|lia]. rewrite Hw. simpl.
    replace (k - 0 - j)%nat with (S (k - 1 - j)) by lia. reflexivity.
Qed.

Lemma rounds_inv_all p x2p c (n : nat) st :
  rounds_inv p x2p c n 0 st ->
  rounds_inv p x2p c n n (fold_left (round p x2p true) (seq 0 n) st).
Proof.
  intros H0.
  apply (fold_left_seq_ind (round p x2p true)
           (fun (k : nat) st' => rounds_inv p x2p c n k st')); [assumption|].
  intros k st' Hk Hinv. apply round_inv; assumption.
Qed.

(** Without the shortcut, the rounds leave [digits] as it was. *)
Lemma rounds_noshortcut_c_len p x2p (n : nat) st :
  length (fr_w st) = n ->
  let st' := fold_left (round p x2p false) (seq 0 n) st in
  fr_c st' = fr_c st /\ length (fr_w st') = n /\
  fr_digits st' = fr_digits st.
Proof.
  intros Hl. cbn zeta.
  apply (fold_left_seq_ind (round p x2p false)
           (fun (k : nat) st' => fr_c st' = fr_c st /\ length (fr_w st') = n /\
                         fr_digits st' = fr_digits st)); [auto|].
  intros k st' Hk (Hc & Hw & Hd). unfold round.
  destruct (peel_loop p x2p (reload st') k ltac:(simpl; lia))
    as (Pc & Pd & Pl & _).
  unfold store. simpl in *. rewrite length_insert, Pc, Pd, Pl. auto.
Qed.

(** *** The closing loop *)

Lemma copy_back_loop st (n : nat) :
  length (fr_w st) = n -> length (fr_digits st) = n ->
  let st' := fold_left copy_back (seq 0 n) st in
  fr_c st' = fr_c st /\ fr_w st' = fr_w st /\ fr_log st' = fr_log st /\
  fr_digits st' = fr_w st.
Proof.
  intros Hw Hd. cbn zeta.
  assert (Hind :
    let st' := fold_left copy_back (seq 0 n) st in
    fr_c st' = fr_c st /\ fr_w st' = fr_w st /\ fr_log st' = fr_log st /\
    length (fr_digits st') = n /\
    forall j : nat, (j < n)%nat -> fr_digits st' !! j = fr_w st !! j).
  { cbn zeta.
    apply (fold_left_seq_ind copy_back
      (fun (k : nat) st' =>
         fr_c st' = fr_c st /\ fr_w st' = fr_w st /\ fr_log st' = fr_log st /\
         length (fr_digits st') = n /\
         forall j : nat, (j < k)%nat -> fr_digits st' !! j = fr_w st !! j)).
    - repeat split; auto. intros j Hj. lia.
    - intros k st' Hk (Hc & Hww & Hl & Hlen & Hj).
      destruct (lookup_lt_is_Some_2 (fr_w st) k ltac:(lia)) as [wk Hwk].
      unfold copy_back. rewrite Hww, Hwk. simpl.
      rewrite length_insert. repeat split; auto.
      intros j Hjk. destruct (decide (j = k)) as [->|Hne].
      + rewrite list_lookup_insert_eq by lia. auto.
      + rewrite list_lookup_insert_ne by congruence. apply Hj. lia. }
  cbn zeta in Hind. destruct Hind as (Hc & Hww & Hl & Hlen & Hj).
  repeat split; auto.
  apply list_eq. intros j. destruct (decide (j < n)%nat) as [Hlt|Hge].
  - apply Hj. assumption.
  - rewrite !lookup_ge_None_2 by lia. reflexivity.
Qed.

End ExtractorFacts.

Section ExtractorRuns.

Context {Ctxt : Type} `{CtxtOps Ctxt}.

Implicit Types (st : Frame Ctxt) (c : Ctxt) (p r : Z) (x2p : ZZX).

(** The routine returns whenever the clamped count is not negative. *)
Lemma run_returns (digits : list Ctxt) c r (shortCut : bool) :
  0 <= clamp c r ->
  exists x2p,
    digitPoly (getP c) (clamp c r) = Some x2p /\
    extractDigits_run digits c r shortCut =
    Some (let n := Z.to_nat (clamp c r) in
          let st := fold_left (round (getP c) x2p shortCut) (seq 0 n)
                              (frame0 digits c (getP c) (clamp c r)) in
          if shortCut then st else fold_left copy_back (seq 0 n) st).
Proof.
  intros Hr. destruct (digitPoly_returns (getP c) (clamp c r)) as [x2p Hx].
  exists x2p. split; [assumption|].
  unfold extractDigits_run. cbn zeta. rewrite Hx.
  destruct (Z.ltb_spec (clamp c r) 0); [lia|]. reflexivity.
Qed.

Lemma frame0_inv (digits : list Ctxt) c p r x2p :
  rounds_inv p x2p c (Z.to_nat r) 0 (frame0 digits c p r).
Proof.
  unfold rounds_inv, frame0. simpl.
  rewrite length_replicate, length_resize.
  repeat split; auto. intros j Hj. lia.
Qed.

(** The two modes, side by side. *)
Lemma modes_related (digits digits' : list Ctxt) c r :
  0 <= clamp c r ->
  let n := Z.to_nat (clamp c r) in
  exists x2p ds df,
    digitPoly (getP c) (clamp c r) = Some x2p /\
    extractDigits digits c r true = Some ds /\
    extractDigits digits' c r false = Some df /\
    length ds = n /\ length df = n /\
    forall j : nat, (j < n)%nat ->
      exists t, ds !! j = Some t /\
                df !! j = Some (Nat.iter (n - 1 - j)
                                         (pthPower (getP c) x2p) t).
Proof.
  intros Hr. cbn zeta.
  destruct (run_returns digits c r true Hr) as (x2p & Hx & Ht).
  destruct (run_returns digits' c r false Hr) as (x2p' & Hx' & Hf).
  rewrite Hx in Hx'. injection Hx' as <-.
  cbn zeta in Ht, Hf.
  set (n := Z.to_nat (clamp c r)) in *. set (p := getP c) in *.
  set (st0 := frame0 digits c p (clamp c r)) in *.
  set (st0' := frame0 digits' c p (clamp c r)) in *.
  pose proof (rounds_inv_all p x2p c n st0 (frame0_inv digits c p _ x2p))
    as (Hc & Hlw & Hld & Hj).
  assert (Hs0 : same_locals st0 st0').
  { unfold same_locals, st0, st0', frame0. simpl. auto. }
  pose proof (rounds_same_locals p x2p true false st0 st0' n Hs0)
    as (_ & _ & Hw & _).
  set (stT := fold_left (round p x2p true) (seq 0 n) st0) in *.
  set (stF := fold_left (round p x2p false) (seq 0 n) st0') in *.
  assert (HlF : length (fr_w stF) = n) by (rewrite <- Hw; assumption).
  destruct (rounds_noshortcut_c_len p x2p n st0') as (_ & _ & HdF).
  { unfold st0', frame0. simpl. apply length_replicate. }
  fold stF in HdF.
  assert (HldF : length (fr_digits stF) = n).
  { rewrite HdF. unfold st0', frame0. simpl. apply length_resize. }
  destruct (copy_back_loop stF n HlF HldF) as (_ & _ & _ & Hcopy).
  exists x2p, (fr_digits stT), (fr_w stF).
  split; [assumption|].
  split; [unfold extractDigits; rewrite Ht; reflexivity|].
  split; [unfold extractDigits; rewrite Hf; simpl; rewrite Hcopy; reflexivity|].
  split; [assumption|]. split; [assumption|].
  intros j Hjn. destruct (Hj j Hjn) as (t & Hd & Hwj).
  exists t. split; [assumption|]. rewrite <- Hw. assumption.
Qed.

(** *** The log of calls *)

Lemma peel_log p x2p st (j : nat) (ev : Event) :
  In ev (fr_log (peel p x2p st j)) <->
  In ev (fr_log st) \/
  (ev = EvPolyEval x2p /\ p <> 2 /\ p <> 3 /\ is_Some (fr_w st !! j)).
Proof.
  unfold peel. destruct (fr_w st !! j) as [wj|] eqn:E; simpl.
  - destruct (Z.eqb_spec p 2) as [->|H2]; simpl.
    + split; [auto|]. intros [?|(_ & ? & _)]; [assumption|lia].
    + destruct (Z.eqb_spec p 3) as [->|H3]; simpl.
      * split; [auto|]. intros [?|(_ & _ & ? & _)]; [assumption|lia].
      * rewrite in_app_iff. simpl. split.
        -- intros [?|[<-|[]]]; [auto|]. right. repeat split; eauto.
        -- intros [?|(-> & _)]; auto.
  - split; [auto|]. intros [?|(_ & _ & _ & [? ?])]; [assumption|discriminate].
Qed.

Lemma peel_loop_log p x2p st (i : nat) (ev : Event) :
  In ev (fr_log st) ->
  In ev (fr_log (fold_left (peel p x2p) (seq 0 i) st)).
Proof.
  intros Hin.
  apply (fold_left_seq_ind (peel p x2p)
           (fun (k : nat) st' => In ev (fr_log st'))); [assumption|].
  intros k st' _ Hk. apply peel_log. auto.
Qed.

Lemma peel_loop_log_inv p x2p st (i : nat) (ev : Event) :
  In ev (fr_log (fold_left (peel p x2p) (seq 0 i) st)) ->
  In ev (fr_log st) \/
  (ev = EvPolyEval x2p /\ p <> 2 /\ p <> 3 /\ (0 < i)%nat).
Proof.
  apply (fold_left_seq_ind (peel p x2p)
           (fun (k : nat) st' =>
              In ev (fr_log st') ->
              In ev (fr_log st) \/
              (ev = EvPolyEval x2p /\ p <> 2 /\ p <> 3 /\ (0 < k)%nat))).
  - auto.
  - intros k st' _ IH Hin. apply peel_log in Hin.
    destruct Hin as [Hin|(-> & H2 & H3 & _)].
    + destruct (IH Hin) as [?|(? & ? & ? & ?)]; [auto|].
      right. repeat split; auto; lia.
    + right. repeat split; auto; lia.
Qed.

Lemma rounds_log p x2p (b : bool) st (n : nat) (ev : Event) :
  In ev (fr_log st) ->
  In ev (fr_log (fold_left (round p x2p b) (seq 0 n) st)).
Proof.
  intros Hin.
  apply (fold_left_seq_ind (round p x2p b)
           (fun (k : nat) st' => In ev (fr_log st'))); [assumption|].
  intros k st' _ Hk. unfold round, store. simpl.
  apply peel_loop_log. assumption.
Qed.

Lemma rounds_log_inv p x2p (b : bool) st (n : nat) (ev : Event) :
  In ev (fr_log (fold_left (round p x2p b) (seq 0 n) st)) ->
  In ev (fr_log st) \/
  (ev = EvPolyEval x2p /\ p <> 2 /\ p <> 3 /\ (1 < n)%nat).
Proof.
  apply (fold_left_seq_ind (round p x2p b)
           (fun (k : nat) st' =>
              In ev (fr_log st') ->
              In ev (fr_log st) \/
              (ev = EvPolyEval x2p /\ p <> 2 /\ p <> 3 /\ (1 < n)%nat))).
  - auto.
  - intros k st' Hk IH Hin. unfold round, store in Hin. simpl in Hin.
    apply peel_loop_log_inv in Hin.
    destruct Hin as [Hin|(-> & H2 & H3 & Hpos)].
    + apply IH. exact Hin.
    + right. repeat split; auto; lia.
Qed.

Lemma copy_back_loop_log st (n : nat) :
  fr_log (fold_left copy_back (seq 0 n) st) = fr_log st.
Proof.
  apply (fold_left_seq_ind copy_back
           (fun (k : nat) st' => fr_log st' = fr_log st)); [reflexivity|].
  intros k st' _ IH. unfold copy_back.
  destruct (fr_w st' !! k); simpl; assumption.
Qed.

Lemma copy_back_loop_c st (n : nat) :
  fr_c (fold_left copy_back (seq 0 n) st) = fr_c st.
Proof.
  apply (fold_left_seq_ind copy_back
           (fun (k : nat) st' => fr_c st' = fr_c st)); [reflexivity|].
  intros k st' _ IH. unfold copy_back.
  destruct (fr_w st' !! k); simpl; assumption.
Qed.

Lemma peel_loop_c p x2p st (i : nat) :
  fr_c (fold_left (peel p x2p) (seq 0 i) st) = fr_c st.
Proof.
  apply (fold_left_seq_ind (peel p x2p)
           (fun (j : nat) st' => fr_c st' = fr_c st)); [reflexivity|].
  intros j st' _ IH. unfold peel.
  destruct (fr_w st' !! j); simpl; assumption.
Qed.

Lemma rounds_c p x2p (b : bool) st (n : nat) :
  fr_c (fold_left (round p x2p b) (seq 0 n) st) = fr_c st.
Proof.
  apply (fold_left_seq_ind (round p x2p b)
           (fun (k : nat) st' => fr_c st' = fr_c st)); [reflexivity|].
  intros k st' _ IH. unfold round, store. simpl.
  rewrite peel_loop_c. simpl. assumption.
Qed.

(** The log of a whole run. *)
Lemma run_log (digits : list Ctxt) c r (shortCut : bool) :
  0 <= clamp c r ->
  exists x2p st,
    digitPoly (getP c) (clamp c r) = Some x2p /\
    extractDigits_run digits c r shortCut = Some st /\
    (3 < getP c -> In (EvBuild (getP c) (clamp c r)) (fr_log st)) /\
    forall ev, In ev (fr_log st) ->
      (ev = EvBuild (getP c) (clamp c r) /\ 3 < getP c) \/
      (ev = EvPolyEval x2p /\ getP c <> 2 /\ getP c <> 3 /\ 1 < clamp c r).
Proof.
  intros Hr. destruct (run_returns digits c r shortCut Hr) as (x2p & Hx & Hrun).
  cbn zeta in Hrun. eexists x2p, _. split; [exact Hx|].
  split; [exact Hrun|].
  set (n := Z.to_nat (clamp c r)). set (p := getP c).
  set (st0 := frame0 digits c p (clamp c r)).
  assert (Hlog : fr_log (if shortCut
                         then fold_left (round p x2p shortCut) (seq 0 n) st0
                         else fold_left copy_back (seq 0 n)
                                (fold_left (round p x2p shortCut) (seq 0 n) st0))
                 = fr_log (fold_left (round p x2p shortCut) (seq 0 n) st0)).
  { destruct shortCut; [reflexivity|apply copy_back_loop_log]. }
  rewrite Hlog. split.
  - intros Hp. apply rounds_log. unfold st0, frame0. simpl.
    destruct (Z.gtb_spec p 3); [|lia]. simpl. auto.
  - intros ev Hev. apply rounds_log_inv in Hev.
    destruct Hev as [Hev|(-> & H2 & H3 & Hn)].
    + left. unfold st0, frame0 in Hev. simpl in Hev.
      destruct (Z.gtb_spec p 3); simpl in Hev; [|contradiction].
      destruct Hev as [<-|[]]. split; [reflexivity|lia].
    + right. repeat split; auto; lia.
Qed.

End ExtractorRuns.

(** ** Clamping, the input, the two modes, the calls *)

Section ExtractorTheorems.

Context {Ctxt : Type} `{CtxtOps Ctxt}.

Implicit Types (c : Ctxt) (r : Z).

(** C4.  A requested count [r <= 0] or [r > effectiveR(c)] gives the
    same output as the request [effectiveR(c)]; the request is clamped
    and the routine returns as for any other request. *)
Theorem extractDigits_clamped (digits : list Ctxt) c r (shortCut : bool) :
  r <= 0 \/ r > effectiveR c ->
  extractDigits digits c r shortCut
  = extractDigits digits c (effectiveR c) shortCut /\
  (0 <= effectiveR c ->
   exists ds, extractDigits digits c r shortCut = Some ds /\
              Z.of_nat (length ds) = effectiveR c).
Proof.
  intros Hr. pose proof (clamp_out_of_range c r Hr) as Hc.
  split.
  - unfold extractDigits, extractDigits_run. cbn zeta.
    rewrite Hc, clamp_effectiveR. reflexivity.
  - intros HR. assert (H0 : 0 <= clamp c r) by lia.
    destruct (modes_related digits digits c r H0)
      as (x2p & ds & df & _ & Ht & Hf & Hlt & Hlf & _).
    rewrite Hc in Hlt, Hlf.
    destruct shortCut; [exists ds|exists df]; split; auto; lia.
Qed.

(** A call whose argument [c] is an object of its own is the call that
    [extractDigits_run] describes. *)
Lemma ref_external (digits : list Ctxt) c r (shortCut : bool) :
  extractDigits_ref (External c) digits r shortCut
  = extractDigits_run digits c r shortCut.
Proof. reflexivity. Qed.

Lemma run_keeps_c (digits : list Ctxt) c r (shortCut : bool) :
  0 <= clamp c r ->
  exists st, extractDigits_run digits c r shortCut = Some st /\ fr_c st = c.
Proof.
  intros Hr.
  destruct (run_returns digits c r shortCut Hr) as (x2p & _ & Hrun).
  eexists. split; [exact Hrun|]. cbn zeta.
  destruct shortCut; rewrite ?copy_back_loop_c, rounds_c; reflexivity.
Qed.

(** The loops leave the size of [digits] alone. *)
Lemma peel_list_digits p x2p (l : list nat) (st : Frame Ctxt) :
  fr_digits (fold_left (peel p x2p) l st) = fr_digits st.
Proof.
  revert st. induction l as [|j l IH]; intros st; simpl; [reflexivity|].
  rewrite IH. unfold peel. destruct (fr_w st !! j); reflexivity.
Qed.

Lemma round_digits_length p x2p (shortCut : bool) (st : Frame Ctxt) (i : nat) :
  length (fr_digits (round p x2p shortCut st i)) = length (fr_digits st).
Proof.
  unfold round, store. simpl.
  destruct shortCut; rewrite ?length_insert, peel_list_digits; reflexivity.
Qed.

Lemma copy_back_digits_length (st : Frame Ctxt) (i : nat) :
  length (fr_digits (copy_back st i)) = length (fr_digits st).
Proof.
  unfold copy_back. destruct (fr_w st !! i); simpl;
    rewrite ?length_insert; reflexivity.
Qed.

(** After a write to [digits], an argument that names [digits[k]] has the
    value of [digits[k]]. *)
Lemma sync_element (k : nat) (st : Frame Ctxt) :
  (k < length (fr_digits st))%nat ->
  fr_digits (sync (Element k) st) = fr_digits st /\
  fr_digits (sync (Element k) st) !! k = Some (fr_c (sync (Element k) st)).
Proof.
  intros Hk. unfold sync.
  destruct (lookup_lt_is_Some_2 (fr_digits st) k Hk) as [v Hv].
  rewrite Hv. simpl. auto.
Qed.


(** C10.  For every index [j] below the clamped count [r >= 1], the
    output [j] without the shortcut is the output [j] with the shortcut
    after [r - 1 - j] applications of the power operation; the two
    outputs at [j = r - 1] are the same ciphertext. *)
Theorem exact_is_powered_shortcut (digits digits' : list Ctxt) c r :
  1 <= clamp c r ->
  let n := Z.to_nat (clamp c r) in
  exists x2p ds df,
    digitPoly (getP c) (clamp c r) = Some x2p /\
    extractDigits digits c r true = Some ds /\
    extractDigits digits' c r false = Some df /\
    (forall j : nat, (j < n)%nat ->
       exists t, ds !! j = Some t /\
                 df !! j = Some (Nat.iter (n - 1 - j)
                                          (pthPower (getP c) x2p) t)) /\
    is_Some (ds !! (n - 1)%nat) /\ ds !! (n - 1)%nat = df !! (n - 1)%nat.
Proof.
  intros Hr. cbn zeta. assert (H0 : 0 <= clamp c r) by lia.
  destruct (modes_related digits digits' c r H0)
    as (x2p & ds & df & Hx & Ht & Hf & _ & _ & Hj).
  exists x2p, ds, df. repeat split; try assumption.
  - destruct (Hj (Z.to_nat (clamp c r) - 1)%nat ltac:(lia)) as (t & Hd & _).
    eauto.
  - destruct (Hj (Z.to_nat (clamp c r) - 1)%nat ltac:(lia)) as (t & Hd & Hw).
    rewrite Hd, Hw. f_equal.
    replace (Z.to_nat (clamp c r) - 1 - (Z.to_nat (clamp c r) - 1))%nat
      with 0%nat by lia.
    reflexivity.
Qed.

(** C6 (amended).  The builder is called exactly when [p > 3], with
    [e] the clamped count, which may be one; and for [p >= 2] every
    polynomial handed to [polyEval] is the one the builder returned for
    [p > 3] and [e > 1]. *)
Theorem builder_calls (digits : list Ctxt) c r (shortCut : bool) :
  0 <= clamp c r -> 2 <= getP c ->
  exists st,
    extractDigits_run digits c r shortCut = Some st /\
    (forall p e, In (EvBuild p e) (fr_log st) <->
                 p = getP c /\ e = clamp c r /\ 3 < p) /\
    (forall q, In (EvPolyEval q) (fr_log st) ->
               3 < getP c /\ 1 < clamp c r /\
               buildDigitPolynomial [] (getP c) (clamp c r) = Some q).
Proof.
  intros Hr Hp.
  destruct (run_log digits c r shortCut Hr) as (x2p & st & Hx & Hrun & Hb & Hlog).
  exists st. split; [assumption|]. split.
  - intros p e. split.
    + intros Hin. destruct (Hlog _ Hin) as [[E H3]|[E _]]; [|discriminate].
      injection E as -> ->. auto.
    + intros (-> & -> & H3). apply Hb. assumption.
  - intros q Hin. destruct (Hlog _ Hin) as [[E _]|(E & H2 & H3 & Hr1)];
      [discriminate|].
    injection E as ->.
    assert (H4 : 3 < getP c) by lia.
    repeat split; try assumption.
    unfold digitPoly in Hx. destruct (Z.gtb_spec (getP c) 3); [assumption|lia].
Qed.

End ExtractorTheorems.

Lemma extractDigits_clamped_witness :
  (7 <= 0 \/ 7 > effectiveR sample5) /\
  extractDigits [] sample5 7 true
  = extractDigits [] sample5 (effectiveR sample5) true.
Proof.
  split; [right; reflexivity|].
  apply (extractDigits_clamped [] sample5 7 true). right. reflexivity.
Defined.



Lemma exact_is_powered_shortcut_witness :
  1 <= clamp sample5 0 /\
  let n := Z.to_nat (clamp sample5 0) in
  exists x2p ds df,
    digitPoly (getP sample5) (clamp sample5 0) = Some x2p /\
    extractDigits [] sample5 0 true = Some ds /\
    extractDigits [] sample5 0 false = Some df /\
    (forall j : nat, (j < n)%nat ->
       exists t, ds !! j = Some t /\
                 df !! j = Some (Nat.iter (n - 1 - j)
                                          (pthPower (getP sample5) x2p) t)) /\
    is_Some (ds !! (n - 1)%nat) /\ ds !! (n - 1)%nat = df !! (n - 1)%nat.
Proof.
  split; [vm_compute; discriminate|].
  apply (exact_is_powered_shortcut [] [] sample5 0).
  vm_compute. discriminate.
Defined.

(** C6 (as stated, refuted).  For [p = 5] and a ciphertext of capacity one
    the builder is called with [e = 1]. *)
Lemma builder_called_for_one_digit :
  exists st,
    extractDigits_run [] single5 0 true = Some st /\
    In (EvBuild 5 1) (fr_log st) /\ ~ (5 > 3 /\ 1 > 1).
Proof.
  eexists. split; [vm_compute; reflexivity|].
  split; [left; reflexivity|]. intros [_ H]. discriminate H.
Qed.

Lemma builder_calls_witness :
  0 <= clamp sample5 0 /\ 2 <= getP sample5 /\
  exists st,
    extractDigits_run [] sample5 0 true = Some st /\
    (forall p e, In (EvBuild p e) (fr_log st) <->
                 p = getP sample5 /\ e = clamp sample5 0 /\ 3 < p) /\
    (forall q, In (EvPolyEval q) (fr_log st) ->
               3 < getP sample5 /\ 1 < clamp sample5 0 /\
               buildDigitPolynomial [] (getP sample5) (clamp sample5 0)
               = Some q).
Proof.
  split; [vm_compute; discriminate|]. split; [vm_compute; discriminate|].
  apply (builder_calls [] sample5 0 true); vm_compute; discriminate.
Defined.

(** * Number theory of the digit polynomial *)

(** ** Congruences *)

Lemma cong_iff_divide (m a b : Z) :
  m <> 0 -> (a mod m = b mod m <-> (m | a - b)).
Proof.
  intros Hm. split.
  - intros H. exists (a / m - b / m).
    pose proof (Z.div_mod a m Hm). pose proof (Z.div_mod b m Hm). lia.
  - intros [q Hq]. replace a with (b + q * m) by lia.
    apply Z.mod_add. assumption.
Qed.

Lemma divide_pow_le (p a b : Z) : 0 <= a <= b -> (p ^ a | p ^ b).
Proof.
  intros H. exists (p ^ (b - a)).
  rewrite <- Z.pow_add_r by lia. f_equal. lia.
Qed.

(** ** Evaluation *)

Lemma eval_add (f g : ZZX) (z : Z) :
  ZZX.eval (ZZX.add f g) z = ZZX.eval f z + ZZX.eval g z.
Proof.
  revert g. induction f as [|a f IH]; intros [|b g]; simpl; try lia.
  rewrite IH. ring.
Qed.

Lemma eval_scale (c : Z) (f : ZZX) (z : Z) :
  ZZX.eval (ZZX.scale c f) z = c * ZZX.eval f z.
Proof.
  induction f as [|a f IH]; [simpl; ring|].
  change (ZZX.eval (ZZX.scale c (a :: f)) z)
    with (c * a + z * ZZX.eval (ZZX.scale c f) z).
  rewrite IH. simpl. ring.
Qed.

Lemma eval_mul_linear (a : Z) (f : ZZX) (z : Z) :
  ZZX.eval (ZZX.mul_linear a f) z = (z - a) * ZZX.eval f z.
Proof.
  unfold ZZX.mul_linear. rewrite eval_add, eval_scale. simpl. ring.
Qed.

Lemma eval_app (f g : ZZX) (z : Z) :
  ZZX.eval (f ++ g) z = ZZX.eval f z + z ^ Z.of_nat (length f) * ZZX.eval g z.
Proof.
  induction f as [|a f IH].
  - rewrite app_nil_l. change (ZZX.eval [] z) with 0.
    change (Z.of_nat (length (@nil Z))) with 0. rewrite Z.pow_0_r. ring.
  - change (ZZX.eval ((a :: f) ++ g) z) with (a + z * ZZX.eval (f ++ g) z).
    rewrite IH. change (length (a :: f)) with (S (length f)).
    rewrite Nat2Z.inj_succ, Z.pow_succ_r by lia.
    change (ZZX.eval (a :: f) z) with (a + z * ZZX.eval f z). ring.
Qed.

Lemma eval_replicate_0 (n : nat) (z : Z) : ZZX.eval (replicate n 0) z = 0.
Proof. induction n as [|n IH]; simpl; [reflexivity|]. rewrite IH. ring. Qed.

Lemma eval_reduce (m : Z) (f : ZZX) (z : Z) :
  m <> 0 -> (m | ZZX.eval (ZZX.reduce m f) z - ZZX.eval f z).
Proof.
  intros Hm. induction f as [|a f IH]; simpl.
  - exists 0. ring.
  - destruct IH as [q Hq]. exists (- (a / m) + z * q).
    pose proof (Z.div_mod a m Hm).
    fold (ZZX.reduce m f). nia.
Qed.

Lemma eval_divisible (p : Z) (f : ZZX) (z : Z) :
  Forall (fun c => (p | c)) f -> (p | ZZX.eval f z).
Proof.
  induction 1 as [|c f Hc _ IH]; simpl.
  - apply Z.divide_0_r.
  - apply Z.divide_add_r; [assumption|]. apply Z.divide_mul_r. assumption.
Qed.

(** When [p] divides every coefficient, arguments that agree modulo [m]
    give values that agree modulo [p m]. *)
Lemma eval_cong_lift (p m : Z) (f : ZZX) (a b : Z) :
  Forall (fun c => (p | c)) f ->
  (m | a - b) -> (p * m | ZZX.eval f a - ZZX.eval f b).
Proof.
  intros Hf [q Hq]. induction Hf as [|c f Hc Hf IH]; simpl.
  - exists 0. ring.
  - destruct IH as [s Hs].
    destruct (eval_divisible p f b Hf) as [u Hu].
    exists (a * s + q * u).
    replace (c + a * ZZX.eval f a - (c + b * ZZX.eval f b))
      with (a * (ZZX.eval f a - ZZX.eval f b) + (a - b) * ZZX.eval f b) by ring.
    rewrite Hs, Hq, Hu. ring.
Qed.

(** ** Powers *)

(** [(b + c)^n = b^n + n b^(n-1) c] up to a multiple of [c^2]. *)
Lemma pow_binomial_head (b c n : Z) :
  0 <= n ->
  exists q, (b + c) ^ (n + 1) = b ^ (n + 1) + (n + 1) * b ^ n * c + c * c * q.
Proof.
  intros Hn. pattern n. apply natlike_ind; [| |assumption].
  - exists 0. rewrite Z.add_0_l, !Z.pow_1_r, Z.pow_0_r. ring.
  - intros x Hx [q IH].
    exists (b * q + (x + 1) * b ^ x + c * q).
    replace (Z.succ x + 1) with (Z.succ (x + 1)) by lia.
    rewrite !(Z.pow_succ_r _ (x + 1)) by lia. rewrite IH.
    rewrite (Z.pow_succ_r b x) by lia.
    rewrite (Z.pow_add_r b x 1), Z.pow_1_r by lia.
    unfold Z.succ. ring.
Qed.

(** If [a] and [b] agree modulo [p^k], [k >= 1], then [a^p] and [b^p] agree
    modulo [p^(k+1)]. *)
Lemma pow_lift (p k a b : Z) :
  1 <= p -> 1 <= k -> (p ^ k | a - b) -> (p ^ (k + 1) | a ^ p - b ^ p).
Proof.
  intros Hp Hk [s Hs].
  destruct (pow_binomial_head b (s * p ^ k) (p - 1) ltac:(lia)) as [q Hq].
  replace (p - 1 + 1) with p in Hq by lia.
  replace (b + s * p ^ k) with a in Hq by lia.
  rewrite Hq.
  assert (Hsq : p ^ k * p ^ k = p * p ^ k * p ^ (k - 1)).
  { replace (p * p ^ k) with (p ^ 1 * p ^ k) by (rewrite Z.pow_1_r; ring).
    rewrite <- !Z.pow_add_r by lia. f_equal. lia. }
  assert (Hpk : p ^ (k + 1) = p * p ^ k).
  { rewrite Z.pow_add_r by lia. rewrite Z.pow_1_r. ring. }
  exists (b ^ (p - 1) * s + s * s * q * p ^ (k - 1)).
  rewrite Hpk.
  replace (s * p ^ k * (s * p ^ k) * q) with (s * s * q * (p ^ k * p ^ k)) by ring.
  rewrite Hsq. ring.
Qed.

(** ** Newton's scheme interpolates *)

Lemma newton_correct (m : Z) (pts seen : list (Z * Z)) (P N : ZZX) :
  m <> 0 ->
  good_nodes m (map fst pts) ->
  Forall (fun x => Z.coprime (ZZX.eval N x) m) (map fst pts) ->
  Forall (fun xy => ZZX.eval N (fst xy) = 0 /\
                    (m | ZZX.eval P (fst xy) - snd xy)) seen ->
  Forall (fun xy => (m | ZZX.eval (newton m pts P N) (fst xy) - snd xy))
         (seen ++ pts).
Proof.
  intros Hm. revert seen P N.
  induction pts as [|[x0 y0] pts IH]; intros seen P N Hgood Hcop Hseen.
  - rewrite app_nil_r. simpl.
    eapply Forall_impl; [exact Hseen|]. intros xy [_ Hxy]. exact Hxy.
  - simpl in Hgood, Hcop. destruct Hgood as [Hx0 Hgood].
    apply Forall_cons in Hcop. destruct Hcop as [Hc0 Hcop].
    simpl newton.
    set (c := ((y0 - ZZX.eval P x0) * Z.invmod (ZZX.eval N x0) m) mod m).
    replace (seen ++ (x0, y0) :: pts) with ((seen ++ [(x0, y0)]) ++ pts)
      by (rewrite <- app_assoc; reflexivity).
    apply IH; [assumption| |].
    + apply Forall_forall. intros x' Hx'.
      rewrite eval_mul_linear. apply Z.coprime_mul_l.
      * rewrite Forall_forall in Hx0. apply Hx0. assumption.
      * rewrite Forall_forall in Hcop. apply Hcop. assumption.
    + apply Forall_app. split.
      * eapply Forall_impl; [exact Hseen|]. intros xy [HN HP].
        rewrite eval_mul_linear, eval_add, eval_scale, HN.
        split; [ring|]. replace (ZZX.eval P xy.1 + c * 0 - xy.2)
                          with (ZZX.eval P xy.1 - xy.2) by ring.
        assumption.
      * apply Forall_singleton. simpl.
        rewrite eval_mul_linear, eval_add, eval_scale.
        split; [ring|].
        apply cong_iff_divide; [assumption|].
        rewrite <- Zplus_mod_idemp_r. unfold c.
        rewrite Zmult_mod_idemp_l, <- Z.mul_assoc.
        rewrite <- Zmult_mod_idemp_r.
        rewrite (Z.invmod_coprime' _ _ Hc0).
        rewrite Zmult_mod_idemp_r, Z.mul_1_r, Zplus_mod_idemp_r.
        f_equal. ring.
Qed.

(** ** Divisibility of the coefficients *)

Lemma Forall_divide_add (p : Z) (f g : ZZX) :
  Forall (fun c => (p | c)) f -> Forall (fun c => (p | c)) g ->
  Forall (fun c => (p | c)) (ZZX.add f g).
Proof.
  intros Hf. revert g. induction Hf as [|a f Ha Hf IH]; intros g Hg.
  - destruct g; assumption.
  - destruct Hg as [|b g Hb Hg]; simpl.
    + constructor; assumption.
    + constructor; [apply Z.divide_add_r; assumption|apply IH; assumption].
Qed.

Lemma Forall_divide_scale (p c : Z) (f : ZZX) :
  (p | c) -> Forall (fun a => (p | a)) (ZZX.scale c f).
Proof.
  intros Hc. unfold ZZX.scale.
  induction f as [|b f IH]; simpl; constructor; [|assumption].
  apply Z.divide_mul_l. assumption.
Qed.

Lemma Forall_divide_reduce (p m : Z) (f : ZZX) :
  (p | m) -> Forall (fun a => (p | a)) f ->
  Forall (fun a => (p | a)) (ZZX.reduce m f).
Proof.
  intros Hpm Hf. unfold ZZX.reduce.
  induction Hf as [|b f Hf _ IH]; simpl; constructor; [|assumption].
  destruct (Z.eq_dec m 0) as [->|Hm].
  - rewrite Z.mod_0_r. assumption.
  - rewrite Z.mod_eq by assumption.
    apply Z.divide_sub_r; [assumption|].
    apply Z.divide_mul_l. assumption.
Qed.

Lemma Forall_normalize (Q : Z -> Prop) (f : list Z) :
  Forall Q f -> Forall Q (ZZX.normalize f).
Proof.
  induction 1 as [|a f Ha Hf IH]; simpl; [constructor|].
  destruct (ZZX.normalize f).
  - destruct (a =? 0); constructor; auto.
  - constructor; assumption.
Qed.

Lemma newton_divisible (p m : Z) (pts : list (Z * Z)) (P N : ZZX) :
  (p | m) ->
  Forall (fun c => (p | c)) P ->
  Forall (fun xy => (p | snd xy)) pts ->
  Forall (fun c => (p | c)) (newton m pts P N).
Proof.
  intros Hpm. revert P N.
  induction pts as [|[x0 y0] pts IH]; intros P N HP Hpts; simpl.
  - assumption.
  - apply Forall_cons in Hpts. destruct Hpts as [Hy0 Hpts]. simpl in Hy0.
    apply IH; [|assumption].
    apply Forall_divide_add; [assumption|].
    apply Forall_divide_scale.
    set (a := (y0 - ZZX.eval P x0) * Z.invmod (ZZX.eval N x0) m).
    assert (Ha : (p | a)).
    { unfold a. apply Z.divide_mul_l. apply Z.divide_sub_r; [assumption|].
      apply eval_divisible. assumption. }
    destruct (Z.eq_dec m 0) as [->|Hm].
    + rewrite Z.mod_0_r. assumption.
    + rewrite Z.mod_eq by assumption.
      apply Z.divide_sub_r; [assumption|].
      apply Z.divide_mul_l. assumption.
Qed.

(** ** The digit polynomial *)

Lemma good_nodes_seq (m : Z) (f : nat -> Z) (s len : nat) :
  (forall j k : nat, (s <= j < k)%nat -> (k < s + len)%nat ->
                     Z.coprime (f k - f j) m) ->
  good_nodes m (map f (seq s len)).
Proof.
  revert s. induction len as [|len IH]; intros s Hf; simpl; [exact I|].
  split.
  - apply List.Forall_forall. intros x Hx.
    apply in_map_iff in Hx. destruct Hx as (k & <- & Hk).
    apply in_seq in Hk. apply Hf; lia.
  - apply IH. intros j k Hjk Hk. apply Hf; lia.
Qed.

Lemma table_nodes_good (p e : Z) :
  Z.prime p -> 0 <= e ->
  good_nodes (p ^ e) (map (table_x p) (seq 0 (Z.to_nat p))).
Proof.
  intros Hp He. apply good_nodes_seq. intros j k Hjk Hk.
  unfold table_x.
  replace (- (p ÷ 2) + Z.of_nat k - (- (p ÷ 2) + Z.of_nat j))
    with (Z.of_nat k - Z.of_nat j) by ring.
  apply Z.coprime_pow_r; [assumption|].
  symmetry. apply Z.coprime_prime_small; [assumption|lia].
Qed.

Lemma zip_map_seq {A B : Type} (f : nat -> A) (g : nat -> B) (l : list nat) :
  zip (map f l) (map g l) = map (fun j => (f j, g j)) l.
Proof. induction l as [|a l IH]; simpl; [reflexivity|]. rewrite IH. reflexivity. Qed.

(** Fermat: the ordinates are multiples of [p]. *)
Lemma table_y_divisible (p e : Z) (j : nat) :
  Z.prime p -> 1 <= e -> (p | table_y p e j).
Proof.
  intros Hp He. pose proof (Z.prime_ge_2 p Hp) as Hp2.
  pose proof (table_y_cong p e j Hp2 ltac:(lia)) as Hc.
  assert (Hne : p ^ e <> 0) by (apply Z.pow_nonzero; lia).
  apply cong_iff_divide in Hc; [|assumption].
  assert (Hpe : (p | p ^ e)).
  { replace p with (p ^ 1) at 1 by apply Z.pow_1_r.
    apply divide_pow_le. lia. }
  assert (Hf : (p | table_x p j - table_x p j ^ p)).
  { apply cong_iff_divide; [lia|]. symmetry. apply Z.fermat. assumption. }
  replace (table_y p e j)
    with ((table_y p e j - (table_x p j - table_x p j ^ p))
          + (table_x p j - table_x p j ^ p)) by ring.
  apply Z.divide_add_r; [|assumption].
  exact (Z.divide_trans _ _ _ Hpe Hc).
Qed.

(** The correction polynomial: it takes the tabulated values and all its
    coefficients are multiples of [p]. *)
Lemma correction_spec (p e : Z) :
  Z.prime p -> 1 <= e ->
  let xy := digitTable p e in
  let Q := interpolateMod (fst xy) (snd xy) p e in
  Forall (fun c => (p | c)) Q /\
  forall j : nat, (j < Z.to_nat p)%nat ->
    (p ^ e | ZZX.eval Q (table_x p j) - table_y p e j).
Proof.
  intros Hp He. cbn zeta. pose proof (Z.prime_ge_2 p Hp) as Hp2.
  assert (Hne : p ^ e <> 0) by (apply Z.pow_nonzero; lia).
  rewrite digitTable_eq. simpl fst. simpl snd.
  unfold interpolateMod, power_long. cbn zeta.
  rewrite zip_map_seq.
  set (pts := map (fun j => (table_x p j, table_y p e j)) (seq 0 (Z.to_nat p))).
  assert (Hfst : map fst pts = map (table_x p) (seq 0 (Z.to_nat p))).
  { unfold pts. rewrite map_map. reflexivity. }
  split.
  - apply Forall_normalize. apply Forall_divide_reduce.
    + replace p with (p ^ 1) at 1 by apply Z.pow_1_r.
      apply divide_pow_le. lia.
    + apply newton_divisible.
      * replace p with (p ^ 1) at 1 by apply Z.pow_1_r.
        apply divide_pow_le. lia.
      * constructor.
      * unfold pts. apply List.Forall_forall. intros xy Hxy.
        apply in_map_iff in Hxy. destruct Hxy as (j & <- & _). simpl.
        apply table_y_divisible; assumption.
  - intros j Hj. rewrite eval_normalize.
    pose proof (newton_correct (p ^ e) pts [] [] [1] Hne) as Hn.
    rewrite Hfst in Hn.
    specialize (Hn (table_nodes_good p e Hp ltac:(lia))).
    assert (Hone : Forall (fun x => Z.coprime (ZZX.eval [1] x) (p ^ e))
                          (map (table_x p) (seq 0 (Z.to_nat p)))).
    { apply List.Forall_forall. intros x _. simpl.
      rewrite Z.mul_0_r, Z.add_0_r. apply Z.coprime_1_l. }
    specialize (Hn Hone (List.Forall_nil _)). rewrite app_nil_l in Hn.
    rewrite List.Forall_forall in Hn.
    specialize (Hn (table_x p j, table_y p e j)). simpl in Hn.
    assert (Hin : In (table_x p j, table_y p e j) pts).
    { unfold pts. apply in_map_iff. exists j. split; [reflexivity|].
      apply in_seq. lia. }
    specialize (Hn Hin).
    destruct (eval_reduce (p ^ e) (newton (p ^ e) pts [] [1]) (table_x p j) Hne)
      as [q Hq].
    destruct Hn as [s Hs]. exists (q + s). lia.
Qed.

Lemma eval_SetCoeff (f : ZZX) (i z : Z) :
  0 <= i -> ZZX.deg f < i ->
  ZZX.eval (ZZX.SetCoeff f i) z = ZZX.eval f z + z ^ i.
Proof.
  intros Hi Hdeg. unfold ZZX.deg in Hdeg.
  rewrite SetCoeff_shape by lia.
  rewrite app_assoc, eval_app, eval_app, eval_replicate_0.
  rewrite eval_normalize, length_app, length_replicate.
  replace (Z.of_nat (length (ZZX.normalize f)
                     + (Z.to_nat i - length (ZZX.normalize f)))) with i by lia.
  simpl. ring.
Qed.

(** What the builder returns, for a prime [p] and [e > 1]. *)
Lemma buildDigitPolynomial_shape (result : ZZX) (p e : Z) :
  2 <= p -> 1 < e ->
  let xy := digitTable p e in
  let Q := interpolateMod (fst xy) (snd xy) p e in
  ZZX.deg Q < p /\
  buildDigitPolynomial result p e = Some (ZZX.SetCoeff Q p).
Proof.
  intros Hp He. cbn zeta.
  pose proof (interpolateMod_deg (fst (digitTable p e)) (snd (digitTable p e))
                p e) as Hd.
  destruct (digitTable_length p e) as [E1 E2].
  rewrite E1, E2, Nat.min_id, Z2Nat.id in Hd by lia.
  split; [assumption|]. unfold buildDigitPolynomial.
  destruct (Z.ltb_spec p 2); [lia|]. destruct (Z.leb_spec e 1); [lia|].
  simpl. apply Z.ltb_lt in Hd. rewrite Hd. reflexivity.
Qed.

(** ** The builder: table, degree, congruences *)

Lemma prime_5 : Z.prime 5.
Proof.
  split; [lia|]. intros n Hn [q Hq].
  assert (n = 2 \/ n = 3 \/ n = 4) as [-> | [-> | ->]] by lia; lia.
Qed.

(** C7 (as stated, refuted).  For [p = 2], [e = 2] the first ordinate is
    [-2 = -(p^e)/2], which the half-open interval [(-p^e/2, p^e/2]]
    excludes. *)
Lemma table_half_open_fails :
  exists yj, snd (digitTable 2 2) !! 0%nat = Some yj /\
             ~ (- 2 ^ 2 < 2 * yj <= 2 ^ 2).
Proof. exists (-2). split; [reflexivity|]. cbn. lia. Qed.

(** C7 (amended).  For [p >= 2] and [e > 1] the table holds the [p]
    centred representatives [z = -(p/2) + j], exactly one in each residue
    class modulo [p]; each ordinate [y[j]] is congruent to [z - z^p]
    modulo [p^e] and lies in the closed interval from [-(p^e/2)] to
    [p^e/2] (integer halves), which for odd [p] is the same as
    [-p^e/2 < y[j] <= p^e/2]. *)
Theorem interpolation_table (p e : Z) :
  2 <= p -> 1 < e ->
  let x := fst (digitTable p e) in
  let y := snd (digitTable p e) in
  length x = Z.to_nat p /\ length y = Z.to_nat p /\
  (forall a : Z, exists j : nat,
      (j < Z.to_nat p)%nat /\
      (exists z, x !! j = Some z /\ z mod p = a mod p) /\
      forall k z', x !! k = Some z' -> z' mod p = a mod p -> k = j) /\
  (forall j : nat, (j < Z.to_nat p)%nat ->
     exists z yj,
       x !! j = Some z /\ y !! j = Some yj /\
       z = - (p / 2) + Z.of_nat j /\
       yj mod p ^ e = (z - z ^ p) mod p ^ e /\
       - (p ^ e / 2) <= yj <= p ^ e / 2 /\
       (Z.odd p = true -> - p ^ e < 2 * yj <= p ^ e)).
Proof.
  intros Hp He. cbn zeta.
  destruct (digitTable_length p e) as [Lx Ly].
  split; [assumption|]. split; [assumption|]. split.
  - intros a. destruct (table_x_covers p a Hp) as (j & Hj & Hja).
    exists j. split; [assumption|]. split.
    + exists (table_x p j). split; [|assumption].
      apply (digitTable_lookup p e j Hj).
    + intros k z' Hk Hz'.
      assert (Hkp : (k < Z.to_nat p)%nat).
      { apply lookup_lt_Some in Hk. lia. }
      destruct (digitTable_lookup p e k Hkp) as [Hxk _].
      rewrite Hxk in Hk. injection Hk as <-.
      apply (table_x_distinct p k j Hkp Hj). congruence.
  - intros j Hj. destruct (digitTable_lookup p e j Hj) as [Hx Hy].
    exists (table_x p j), (table_y p e j).
    split; [assumption|]. split; [assumption|].
    assert (Hq : p ÷ 2 = p / 2) by (apply Z.quot_div_nonneg; lia).
    split; [unfold table_x; rewrite Hq; reflexivity|].
    split; [apply table_y_cong; lia|].
    pose proof (table_y_range p e j Hp ltac:(lia)) as Hr.
    split; [assumption|]. intros Hodd.
    assert (Hpe : Z.odd (p ^ e) = true) by (rewrite Z.odd_pow; [assumption|lia]).
    pose proof (Zdiv2_odd_eqn (p ^ e)) as Hd. rewrite Hpe in Hd.
    rewrite Z.div2_div in Hd. lia.
Qed.

Lemma interpolation_table_witness :
  2 <= 5 /\ 1 < 2 /\
  fst (digitTable 5 2) = [-2; -1; 0; 1; 2] /\
  forall j : nat, (j < Z.to_nat 5)%nat ->
     exists z yj,
       fst (digitTable 5 2) !! j = Some z /\ snd (digitTable 5 2) !! j = Some yj /\
       z = - (5 / 2) + Z.of_nat j /\
       yj mod 5 ^ 2 = (z - z ^ 5) mod 5 ^ 2 /\
       - (5 ^ 2 / 2) <= yj <= 5 ^ 2 / 2 /\
       (Z.odd 5 = true -> - 5 ^ 2 < 2 * yj <= 5 ^ 2).
Proof.
  split; [lia|]. split; [lia|]. split; [reflexivity|].
  apply (interpolation_table 5 2); lia.
Defined.

(** C3.  For [p >= 2] and [e > 1] the interpolated correction has degree
    at most [p - 1], so the assertion holds and the builder returns; the
    polynomial it returns has degree exactly [p] and leading coefficient
    one. *)
Theorem buildDigitPolynomial_monic (result : ZZX) (p e : Z) :
  2 <= p -> 1 < e ->
  let xy := digitTable p e in
  ZZX.deg (interpolateMod (fst xy) (snd xy) p e) <= p - 1 /\
  exists poly,
    buildDigitPolynomial result p e = Some poly /\
    ZZX.deg poly = p /\ ZZX.LeadCoeff poly = 1.
Proof.
  intros Hp He. cbn zeta.
  destruct (buildDigitPolynomial_shape result p e Hp He) as [Hd Hb].
  split; [lia|]. eexists. split; [exact Hb|].
  apply SetCoeff_monic; [lia|assumption].
Qed.

Lemma buildDigitPolynomial_monic_witness :
  2 <= 5 /\ 1 < 2 /\
  exists poly,
    buildDigitPolynomial [] 5 2 = Some poly /\
    ZZX.deg poly = 5 /\ ZZX.LeadCoeff poly = 1.
Proof.
  split; [lia|]. split; [lia|].
  apply (buildDigitPolynomial_monic [] 5 2); lia.
Defined.

(** At each centred representative the polynomial is the identity
    modulo [p^e]. *)
Lemma digit_poly_at_node (p e : Z) (j : nat) :
  Z.prime p -> 1 < e -> (j < Z.to_nat p)%nat ->
  let xy := digitTable p e in
  let Q := interpolateMod (fst xy) (snd xy) p e in
  (p ^ e | ZZX.eval (ZZX.SetCoeff Q p) (table_x p j) - table_x p j).
Proof.
  intros Hp He Hj. cbn zeta. pose proof (Z.prime_ge_2 p Hp) as Hp2.
  destruct (buildDigitPolynomial_shape [] p e Hp2 He) as [Hd _].
  destruct (correction_spec p e Hp ltac:(lia)) as [_ Hq].
  cbn zeta in Hd, Hq. specialize (Hq j Hj).
  rewrite eval_SetCoeff by (assumption || lia).
  pose proof (table_y_cong p e j Hp2 ltac:(lia)) as Hy.
  apply cong_iff_divide in Hy; [|apply Z.pow_nonzero; lia].
  destruct Hq as [q Hq]. destruct Hy as [s Hs].
  exists (q + s). lia.
Qed.

(** The digit-polynomial property, for centred representatives. *)
Lemma digit_poly_lift (p e t z : Z) (j : nat) :
  Z.prime p -> 1 < e -> (j < Z.to_nat p)%nat -> 0 <= t < e ->
  (p ^ Z.max 1 t | z - table_x p j) ->
  let xy := digitTable p e in
  let Q := interpolateMod (fst xy) (snd xy) p e in
  (p ^ (t + 1) | ZZX.eval (ZZX.SetCoeff Q p) z - table_x p j).
Proof.
  intros Hp He Hj Ht Hz. cbn zeta. pose proof (Z.prime_ge_2 p Hp) as Hp2.
  destruct (buildDigitPolynomial_shape [] p e Hp2 He) as [Hd _].
  destruct (correction_spec p e Hp ltac:(lia)) as [Hdiv _].
  pose proof (digit_poly_at_node p e j Hp He Hj) as Hnode.
  cbn zeta in Hd, Hdiv, Hnode.
  set (Q := interpolateMod _ _ p e) in *. set (x := table_x p j) in *.
  assert (Hnode' : (p ^ (t + 1) | ZZX.eval (ZZX.SetCoeff Q p) x - x)).
  { eapply Z.divide_trans; [|exact Hnode]. apply divide_pow_le. lia. }
  assert (Hstep : (p ^ (t + 1) | ZZX.eval (ZZX.SetCoeff Q p) z
                                 - ZZX.eval (ZZX.SetCoeff Q p) x)).
  { rewrite !eval_SetCoeff by (assumption || lia).
    replace (ZZX.eval Q z + z ^ p - (ZZX.eval Q x + x ^ p))
      with ((ZZX.eval Q z - ZZX.eval Q x) + (z ^ p - x ^ p)) by ring.
    destruct (Z.eq_dec t 0) as [->|Ht0].
    - rewrite Z.max_l in Hz by lia. simpl (0 + 1).
      rewrite Z.pow_1_r in *.
      apply Z.divide_add_r.
      + apply Z.divide_sub_r; apply eval_divisible; assumption.
      + assert (Hfz : (p | z ^ p - z))
          by (apply cong_iff_divide; [lia|apply Z.fermat; assumption]).
        assert (Hfx : (p | x ^ p - x))
          by (apply cong_iff_divide; [lia|apply Z.fermat; assumption]).
        destruct Hfz as [a Ha]. destruct Hfx as [b Hb]. destruct Hz as [c Hc].
        exists (a - b + c). lia.
    - rewrite Z.max_r in Hz by lia.
      apply Z.divide_add_r.
      + replace (p ^ (t + 1)) with (p * p ^ t)
          by (rewrite Z.pow_add_r, Z.pow_1_r by lia; ring).
        apply eval_cong_lift; assumption.
      + apply pow_lift; [lia|lia|assumption]. }
  destruct Hnode' as [a Ha]. destruct Hstep as [b Hb].
  exists (a + b). lia.
Qed.

(** C2 (as stated, refuted).  With representatives taken in [[0, p)]:
    for [p = 5], [e = 2], [z0 = z = 4], [t = 1] the polynomial gives
    [24], not [4], modulo [25].  With [z] only known modulo [p]: for
    [p = 5], [e = 3], [z0 = 1], [z = 6], [t = 2] it gives [101], not [1],
    modulo [125]. *)
Lemma digit_poly_standard_rep_fails :
  Z.prime 5 /\
  (exists poly, buildDigitPolynomial [] 5 2 = Some poly /\
                0 <= 4 < 5 /\ 4 mod 5 = 4 mod 5 /\
                ZZX.eval poly 4 mod 5 ^ (1 + 1) <> 4 mod 5 ^ (1 + 1)) /\
  (exists poly, buildDigitPolynomial [] 5 3 = Some poly /\
                0 <= 1 < 5 /\ 6 mod 5 = 1 mod 5 /\
                ZZX.eval poly 6 mod 5 ^ (2 + 1) <> 1 mod 5 ^ (2 + 1)).
Proof.
  split; [exact prime_5|]. split.
  - eexists. split; [vm_compute; reflexivity|].
    split; [lia|]. split; [reflexivity|]. vm_compute. discriminate.
  - eexists. split; [vm_compute; reflexivity|].
    split; [lia|]. split; [reflexivity|]. vm_compute. discriminate.
Qed.

(** C2 (amended).  For a prime [p], [e > 1], every centred representative
    [z0] (from [-(p/2)] up to [p - 1 - p/2]), every [t < e] and every
    integer [z] congruent to [z0] modulo [p] and modulo [p^t], the
    polynomial returned by the builder takes at [z] a value congruent to
    [z0] modulo [p^(t+1)]. *)
Theorem digit_poly_congruence (result : ZZX) (p e z0 t z : Z) :
  Z.prime p -> 1 < e ->
  - (p / 2) <= z0 < p - p / 2 ->
  0 <= t < e ->
  z mod p = z0 mod p ->
  z mod p ^ t = z0 mod p ^ t ->
  exists poly,
    buildDigitPolynomial result p e = Some poly /\
    ZZX.eval poly z mod p ^ (t + 1) = z0 mod p ^ (t + 1).
Proof.
  intros Hp He Hz0 Ht Hzp Hzt. pose proof (Z.prime_ge_2 p Hp) as Hp2.
  destruct (buildDigitPolynomial_shape result p e Hp2 He) as [_ Hb].
  eexists. split; [exact Hb|].
  assert (Hq : p ÷ 2 = p / 2) by (apply Z.quot_div_nonneg; lia).
  assert (Hx : table_x p (Z.to_nat (z0 + p / 2)) = z0).
  { unfold table_x. rewrite Hq. lia. }
  apply cong_iff_divide; [apply Z.pow_nonzero; lia|].
  pose proof (digit_poly_lift p e t z (Z.to_nat (z0 + p / 2)) Hp He
                ltac:(lia) Ht) as Hl.
  cbn zeta in Hl. rewrite Hx in Hl. apply Hl.
  apply cong_iff_divide; [apply Z.pow_nonzero; lia|].
  destruct (Z.max_spec 1 t) as [[_ ->]|[_ ->]]; [assumption|].
  rewrite Z.pow_1_r. assumption.
Qed.

Lemma digit_poly_congruence_witness :
  exists poly,
    buildDigitPolynomial [] 5 3 = Some poly /\
    ZZX.eval poly 49 mod 5 ^ (2 + 1) = (-1) mod 5 ^ (2 + 1).
Proof.
  apply (digit_poly_congruence [] 5 3 (-1) 2 49).
  - exact prime_5.
  - lia.
  - vm_compute. split; [discriminate|reflexivity].
  - lia.
  - reflexivity.
  - reflexivity.
Defined.

(** * Digit extraction on plaintexts *)

(** ** Digits *)

Lemma digitRep_cong (p v : Z) : 2 <= p -> (p | v - digitRep p v).
Proof.
  intros Hp. unfold digitRep. destruct (Z.eqb_spec p 2) as [->|Hne].
  - exists (v / 2). pose proof (Z.div_mod v 2 ltac:(lia)). lia.
  - exists ((v + p / 2) / p).
    pose proof (Z.div_mod (v + p / 2) p ltac:(lia)). lia.
Qed.

Lemma residue_step (p z : Z) (j : nat) :
  2 <= p ->
  residue p j z - peeledDigit p z j = p * residue p (S j) z.
Proof.
  intros Hp. unfold peeledDigit. simpl residue.
  apply Znumtheory.Zdivide_Zdiv_eq; [lia|]. apply digitRep_cong. assumption.
Qed.

Lemma digitRep_node (p v : Z) :
  2 <= p -> p <> 2 ->
  exists j : nat, (j < Z.to_nat p)%nat /\ table_x p j = digitRep p v.
Proof.
  intros Hp Hne. exists (Z.to_nat ((v + p / 2) mod p)).
  pose proof (Z.mod_pos_bound (v + p / 2) p ltac:(lia)).
  split; [lia|]. unfold table_x, digitRep.
  destruct (Z.eqb_spec p 2); [contradiction|].
  rewrite Z.quot_div_nonneg by lia. lia.
Qed.

Lemma digitRep_2_idem (v : Z) : digitRep 2 v * digitRep 2 v = digitRep 2 v.
Proof.
  unfold digitRep. simpl. pose proof (Z.mod_pos_bound v 2 ltac:(lia)).
  assert (v mod 2 = 0 \/ v mod 2 = 1) as [-> | ->] by lia; reflexivity.
Qed.

Lemma digitRep_3_idem (v : Z) :
  digitRep 3 v * digitRep 3 v * digitRep 3 v = digitRep 3 v.
Proof.
  unfold digitRep. simpl. change (3 / 2) with 1.
  pose proof (Z.mod_pos_bound (v + 1) 3 ltac:(lia)).
  assert ((v + 1) mod 3 = 0 \/ (v + 1) mod 3 = 1 \/ (v + 1) mod 3 = 2)
    as [-> | [-> | ->]] by lia; reflexivity.
Qed.

(** For [p = 2] the peeled digits are the binary digits. *)
Lemma residue_2 (z : Z) (j : nat) : residue 2 j z = z / 2 ^ Z.of_nat j.
Proof.
  induction j as [|j IH].
  - simpl. rewrite Z.div_1_r. reflexivity.
  - simpl residue. rewrite IH. unfold digitRep. simpl (2 =? 2).
    cbv iota. set (u := z / 2 ^ Z.of_nat j).
    replace ((u - u mod 2) / 2) with (u / 2).
    + unfold u. rewrite Z.div_div by (try apply Z.pow_pos_nonneg; lia).
      rewrite Nat2Z.inj_succ, Z.pow_succ_r by lia. f_equal. ring.
    + pose proof (Z.div_mod u 2 ltac:(lia)).
      replace (u - u mod 2) with (u / 2 * 2) by lia.
      rewrite Z.div_mul by lia. reflexivity.
Qed.

Lemma peeledDigit_2 (z : Z) (j : nat) : peeledDigit 2 z j = baseDigit 2 z j.
Proof. unfold peeledDigit, baseDigit. rewrite residue_2. reflexivity. Qed.

Lemma digitRep_range (p v : Z) :
  2 <= p -> - (p / 2) <= digitRep p v <= p / 2.
Proof.
  intros Hp. unfold digitRep. destruct (Z.eqb_spec p 2) as [->|Hne].
  - change (2 / 2) with 1. pose proof (Z.mod_pos_bound v 2 ltac:(lia)). lia.
  - pose proof (Z.mod_pos_bound (v + p / 2) p ltac:(lia)).
    pose proof (Z.div_mod p 2 ltac:(lia)).
    pose proof (Z.mod_pos_bound p 2 ltac:(lia)).
    assert (p mod 2 <> 0 \/ 4 <= p) as [Hodd|Hbig] by lia; [lia|].
    lia.
Qed.

(** The peeled digits spell [z], up to a multiple of [p^n]. *)
Lemma peeled_expansion (p z : Z) (n : nat) :
  2 <= p -> z = digitSum p z n + p ^ Z.of_nat n * residue p n z.
Proof.
  intros Hp. induction n as [|n IH].
  - simpl. lia.
  - pose proof (residue_step p z n Hp) as Hs.
    change (digitSum p z (S n))
      with (digitSum p z n + peeledDigit p z n * p ^ Z.of_nat n).
    rewrite Nat2Z.inj_succ, Z.pow_succ_r by lia.
    replace (p * p ^ Z.of_nat n * residue p (S n) z)
      with (p ^ Z.of_nat n * (p * residue p (S n) z)) by ring.
    rewrite <- Hs. rewrite IH at 1. ring.
Qed.

(** ** One application of the power operation to one slot *)

Lemma powValue_lift (p e k u v : Z) (x2p : ZZX) :
  Z.prime p -> digitPoly p e = Some x2p ->
  1 <= k < e ->
  (p ^ k | v - digitRep p u) ->
  (p ^ (k + 1) | powValue p x2p v - digitRep p u).
Proof.
  intros Hp Hx Hk Hv. pose proof (Z.prime_ge_2 p Hp) as Hp2.
  unfold powValue. destruct (Z.eqb_spec p 2) as [->|H2].
  - replace (v * v - digitRep 2 u) with (v ^ 2 - digitRep 2 u ^ 2)
      by (rewrite !Z.pow_2_r, digitRep_2_idem; reflexivity).
    apply pow_lift; [lia|lia|assumption].
  - destruct (Z.eqb_spec p 3) as [->|H3].
    + assert (E : digitRep 3 u ^ 3 = digitRep 3 u).
      { rewrite <- (digitRep_3_idem u) at 2. ring. }
      replace (v * v * v - digitRep 3 u) with (v ^ 3 - digitRep 3 u ^ 3)
        by (rewrite E; ring).
      apply pow_lift; [lia|lia|assumption].
    + unfold digitPoly in Hx. destruct (Z.gtb_spec p 3); [|lia].
      destruct (buildDigitPolynomial_shape [] p e Hp2 ltac:(lia)) as [_ Hb].
      rewrite Hb in Hx. injection Hx as <-.
      destruct (digitRep_node p u Hp2 H2) as (j & Hj & Hxj).
      rewrite <- Hxj in *.
      apply digit_poly_lift; try assumption; [lia|lia|].
      rewrite Z.max_r by lia. assumption.
Qed.

(** ** The operations on ciphertexts *)

Lemma agrees_impl (m m' : Z) (f g : Z -> Z) (zs : list Z) (c : PCtxt) :
  (forall v z, (m | v - f z) -> (m' | v - g z)) ->
  agrees m f zs c -> agrees m' g zs c.
Proof.
  intros Himp Hc. unfold agrees in *.
  eapply Forall2_impl; [exact Hc|exact Himp].
Qed.

Lemma agrees_slotwise (m m' cost : Z) (f g h : Z -> Z) (zs : list Z)
      (c : PCtxt) :
  (m' | ptxtSpace c) ->
  (forall v z, (m | v - f z) -> (m' | h v - g z)) ->
  agrees m f zs c -> agrees m' g zs (slotwise h cost c).
Proof.
  intros HP Himp. unfold agrees, slotwise. simpl.
  generalize (slots c). intros vs Hvs.
  induction Hvs as [|v z vs zs Hvz _ IH]; simpl; constructor; [|assumption].
  destruct (Z.eq_dec (ptxtSpace c) 0) as [E|E].
  - rewrite E, Z.mod_0_r. apply Himp. assumption.
  - rewrite Z.mod_eq by assumption.
    replace (h v - ptxtSpace c * (h v / ptxtSpace c) - g z)
      with ((h v - g z) - ptxtSpace c * (h v / ptxtSpace c)) by ring.
    apply Z.divide_sub_r; [apply Himp; assumption|].
    apply Z.divide_mul_l. assumption.
Qed.

Lemma agrees_sub (m : Z) (f g : Z -> Z) (zs : list Z) (a b : PCtxt) :
  (m | zMStar_P (context a) ^ Z.min (effR a) (effR b)) ->
  agrees m f zs a -> agrees m g zs b ->
  agrees m (fun z => f z - g z) zs (plain_sub a b).
Proof.
  intros HP. unfold agrees, plain_sub. simpl.
  set (P := zMStar_P (context a) ^ Z.min (effR a) (effR b)) in *.
  generalize (slots a) (slots b). intros va vb Ha. revert vb.
  induction Ha as [|x z va zs Hxz _ IH]; intros vb Hb.
  - inversion Hb. constructor.
  - inversion Hb as [|y z' vb' zs' Hyz Hb']; subst. simpl. constructor.
    + destruct (Z.eq_dec P 0) as [E|E].
      * rewrite E, Z.mod_0_r.
        replace (x - y - (f z - g z)) with ((x - f z) - (y - g z)) by ring.
        apply Z.divide_sub_r; assumption.
      * rewrite Z.mod_eq by assumption.
        replace (x - y - P * ((x - y) / P) - (f z - g z))
          with ((x - f z) - (y - g z) - P * ((x - y) / P)) by ring.
        apply Z.divide_sub_r; [apply Z.divide_sub_r; assumption|].
        apply Z.divide_mul_l. assumption.
    + apply IH. assumption.
Qed.

Lemma agrees_divideByP (m : Z) (f : Z -> Z) (zs : list Z) (c : PCtxt) :
  0 < zMStar_P (context c) ->
  agrees (zMStar_P (context c) * m) (fun z => zMStar_P (context c) * f z) zs c ->
  agrees m f zs (plain_divideByP c).
Proof.
  intros Hp. unfold agrees, plain_divideByP. simpl.
  set (p := zMStar_P (context c)) in *.
  generalize (slots c). intros vs Hvs.
  induction Hvs as [|v z vs zs [q Hq] _ IH]; simpl; constructor; [|assumption].
  exists q. replace v with ((f z + q * m) * p) by lia.
  rewrite Z.div_mul by lia. ring.
Qed.

Lemma pthPower_plain (p : Z) (x2p : ZZX) (c : PCtxt) :
  pthPower p x2p c = slotwise (powValue p x2p) (levels_pow (context c)) c.
Proof.
  unfold pthPower, powValue. simpl.
  destruct (p =? 2); [reflexivity|]. destruct (p =? 3); reflexivity.
Qed.

(** ** The rounds *)

Section PlainRun.

Variables (ctx : FHEcontext) (R L : Z) (zs : list Z) (e : Z) (x2p : ZZX).

Hypothesis Hwf : wf_context ctx.
Hypothesis Hx : digitPoly (zMStar_P ctx) e = Some x2p.
Hypothesis HeR : e <= R.

Local Abbreviation p := (zMStar_P ctx).
Local Abbreviation digit j := (fun z => peeledDigit (zMStar_P ctx) z j).

Lemma prime_pos : 2 <= p.
Proof. destruct Hwf as [Hp _]. apply Z.prime_ge_2. assumption. Qed.

(** One application of the power operation gains one digit of precision. *)
Lemma holds_pow (k Rj Lj : Z) (j : nat) (w : PCtxt) :
  holds ctx Rj Lj (p ^ k) (digit j) zs w ->
  1 <= k < e -> k + 1 <= Rj ->
  holds ctx Rj (Lj - levels_pow ctx) (p ^ (k + 1)) (digit j) zs
        (pthPower p x2p w).
Proof.
  intros (Hc & HR & HL & Hag) Hk HkR. rewrite pthPower_plain.
  unfold holds. simpl. rewrite Hc, HL.
  repeat split; try assumption.
  eapply agrees_slotwise; [| |exact Hag].
  - unfold ptxtSpace. rewrite Hc, HR. apply divide_pow_le. lia.
  - intros v z Hv. unfold peeledDigit in *.
    apply (powValue_lift p e k); try assumption. apply Hwf.
Qed.

Lemma holds_iter (Rj Lj : Z) (j m : nat) (t : PCtxt) :
  holds ctx Rj Lj p (digit j) zs t ->
  Z.of_nat m + 1 <= Rj -> Z.of_nat m < e ->
  holds ctx Rj (Lj - Z.of_nat m * levels_pow ctx) (p ^ (Z.of_nat m + 1))
        (digit j) zs (Nat.iter m (pthPower p x2p) t).
Proof.
  intros Ht. induction m as [|m IH]; intros HmR Hme.
  - simpl. rewrite Z.pow_1_r, Z.sub_0_r. assumption.
  - specialize (IH ltac:(lia) ltac:(lia)).
    change (Nat.iter (S m) (pthPower p x2p) t)
      with (pthPower p x2p (Nat.iter m (pthPower p x2p) t)).
    pose proof (holds_pow (Z.of_nat m + 1) Rj _ j _ IH ltac:(lia) ltac:(lia))
      as Hs.
    replace (Z.of_nat (S m) + 1) with (Z.of_nat m + 1 + 1) by lia.
    replace (Lj - Z.of_nat (S m) * levels_pow ctx)
      with (Lj - Z.of_nat m * levels_pow ctx - levels_pow ctx) by lia.
    exact Hs.
Qed.

(** One turn of the loop over [j], on [tmp]. *)
Lemma holds_peel (i k : nat) (tmp t : PCtxt) :
  (k <= i)%nat -> Z.of_nat i < e ->
  holds ctx (R - Z.of_nat k) (tmp_level ctx L i k)
        (p ^ (Z.of_nat i + 1 - Z.of_nat k))
        (fun z => residue p k z) zs tmp ->
  is_digit ctx R L zs k t ->
  (k < i)%nat ->
  holds ctx (R - Z.of_nat (S k)) (tmp_level ctx L i (S k))
        (p ^ (Z.of_nat i + 1 - Z.of_nat (S k)))
        (fun z => residue p (S k) z) zs
        (divideByP (sub tmp (pthPower p x2p
                                      (Nat.iter (i - 1 - k) (pthPower p x2p) t)))).
Proof.
  intros Hki Hie (Tc & TR & TL & Tag) Hd Hlt.
  pose proof prime_pos as Hp2.
  destruct Hwf as (_ & Ha & Hb & Hdv).
  change (pthPower p x2p (Nat.iter (i - 1 - k) (pthPower p x2p) t))
    with (Nat.iter (S (i - 1 - k)) (pthPower p x2p) t).
  replace (S (i - 1 - k)) with (i - k)%nat by lia.
  pose proof (holds_iter _ _ k (i - k) t Hd ltac:(lia) ltac:(lia))
    as (Wc & WR & WL & Wag).
  set (w := Nat.iter (i - k) (pthPower p x2p) t) in *.
  replace (Z.of_nat (i - k)%nat + 1) with (Z.of_nat i + 1 - Z.of_nat k)
    in Wag by lia.
  simpl sub. simpl divideByP.
  assert (Hmin : Z.min (effR tmp) (effR w) = R - Z.of_nat k)
    by (rewrite TR, WR; lia).
  assert (Hsub : agrees (p * p ^ (Z.of_nat i + 1 - Z.of_nat (S k)))
                        (fun z => p * residue p (S k) z) zs (plain_sub tmp w)).
  { replace (p * p ^ (Z.of_nat i + 1 - Z.of_nat (S k)))
      with (p ^ (Z.of_nat i + 1 - Z.of_nat k)).
    2:{ replace (Z.of_nat i + 1 - Z.of_nat k)
          with (Z.succ (Z.of_nat i + 1 - Z.of_nat (S k))) by lia.
        rewrite Z.pow_succ_r by lia. reflexivity. }
    eapply agrees_impl; [|apply agrees_sub; [|exact Tag|exact Wag]].
    - intros v z Hv. cbn beta in Hv.
      rewrite <- residue_step by assumption. exact Hv.
    - rewrite Tc, Hmin. apply divide_pow_le. lia. }
  assert (Hctx : context (plain_sub tmp w) = ctx) by exact Tc.
  unfold holds.
  cbn [context effR level plain_divideByP plain_sub].
  rewrite Tc, Hmin, TL, WL.
  split; [reflexivity|]. split; [lia|]. split.
  - unfold tmp_level, digit_level. destruct k as [|k].
    + rewrite Z.min_r by nia. lia.
    + rewrite Z.min_l by lia. lia.
  - apply agrees_divideByP; rewrite Hctx; [lia|exact Hsub].
Qed.

Local Abbreviation c0 := (mkPCtxt ctx R L zs).

Lemma agrees_input (m : Z) : agrees m (fun z => z) zs c0.
Proof.
  unfold agrees. simpl. induction zs as [|z l IH]; constructor; [|assumption].
  exists 0. ring.
Qed.

(** The loop over [j] in round [i] leaves digit [i] in [tmp]. *)
Lemma tmp_after_peels (i : nat) (st : Frame PCtxt) :
  fr_c st = c0 -> (i <= length (fr_w st))%nat -> Z.of_nat i < e ->
  (forall j : nat, (j < i)%nat ->
     exists t, is_digit ctx R L zs j t /\
               fr_w st !! j = Some (Nat.iter (i - 1 - j) (pthPower p x2p) t)) ->
  is_digit ctx R L zs i
           (fr_tmp (fold_left (peel p x2p) (seq 0 i) (reload st))).
Proof.
  intros Hc Hlen Hie Hw. pose proof prime_pos as Hp2.
  pose (Q := fun (k : nat) (st' : Frame PCtxt) =>
               (forall j : nat, (k <= j)%nat -> fr_w st' !! j = fr_w st !! j) /\
               holds ctx (R - Z.of_nat k) (tmp_level ctx L i k)
                     (p ^ (Z.of_nat i + 1 - Z.of_nat k))
                     (fun z => residue p k z) zs (fr_tmp st')).
  assert (HQ : Q i (fold_left (peel p x2p) (seq 0 i) (reload st))).
  { apply (fold_left_seq_ind (peel p x2p) Q); unfold Q.
    - split; [reflexivity|]. unfold reload. simpl fr_tmp. rewrite Hc.
      unfold holds. simpl. repeat split; try lia. apply agrees_input.
    - intros k st' Hk [Hw' Hh].
      destruct (Hw k Hk) as (t & Ht & Hwk).
      unfold peel. rewrite (Hw' k (Nat.le_refl k)), Hwk. simpl. split.
      + intros j Hj. rewrite list_lookup_insert_ne by lia. apply Hw'. lia.
      + apply holds_peel; try assumption; lia. }
  destruct HQ as [_ (Tc & TR & TL & Tag)].
  unfold is_digit, holds. repeat split; try assumption.
  - rewrite TL. unfold tmp_level, digit_level. destruct i; lia.
  - eapply agrees_impl; [|exact Tag].
    intros v z Hv. cbn beta in *.
    replace (Z.of_nat i + 1 - Z.of_nat i) with 1 in Hv by lia.
    rewrite Z.pow_1_r in Hv. unfold peeledDigit.
    replace (v - digitRep p (residue p i z))
      with ((v - residue p i z)
            + (residue p i z - digitRep p (residue p i z))) by ring.
    apply Z.divide_add_r; [assumption|]. apply digitRep_cong. assumption.
Qed.

(** After [k] rounds with the shortcut, [digits[j]] is digit [j], for
    every [j < k]. *)
Lemma shortcut_rounds (digits : list PCtxt) :
  let n := Z.to_nat e in
  let st := fold_left (round p x2p true) (seq 0 n) (frame0 digits c0 p e) in
  rounds_inv p x2p c0 n n st /\
  forall j : nat, (j < n)%nat ->
    exists t, fr_digits st !! j = Some t /\ is_digit ctx R L zs j t.
Proof.
  cbn zeta. set (n := Z.to_nat e).
  pose (S := fun (k : nat) (st : Frame PCtxt) =>
               rounds_inv p x2p c0 n k st /\
               forall j : nat, (j < k)%nat ->
                 exists t, fr_digits st !! j = Some t /\
                           is_digit ctx R L zs j t).
  apply (fold_left_seq_ind (round p x2p true) S); unfold S.
  - split; [apply frame0_inv|]. intros j Hj. lia.
  - intros k st Hk [Hinv Hdig].
    split; [apply round_inv; assumption|].
    destruct Hinv as (Hc & Hlw & Hld & Hj).
    assert (Htmp : is_digit ctx R L zs k
              (fr_tmp (fold_left (peel p x2p) (seq 0 k) (reload st)))).
    { apply tmp_after_peels; [assumption|lia|lia|].
      intros j Hjk. destruct (Hj j Hjk) as (t & Hd & Hw).
      destruct (Hdig j Hjk) as (t' & Hd' & Ht').
      rewrite Hd in Hd'. injection Hd' as <-. eauto. }
    destruct (peel_loop p x2p (reload st) k ltac:(simpl; lia))
      as (_ & Pd & _ & _).
    intros j HjS. unfold round, store. simpl. rewrite Pd. simpl.
    destruct (decide (j = k)) as [->|Hne].
    + rewrite list_lookup_insert_eq by lia. eauto.
    + rewrite list_lookup_insert_ne by congruence. apply Hdig. lia.
Qed.

End PlainRun.

(** ** Whole runs *)

Lemma clamp_plain (ctx : FHEcontext) (R L : Z) (zs : list Z) (r : Z) :
  1 <= R -> 1 <= clamp (mkPCtxt ctx R L zs) r <= R.
Proof.
  intros HR. unfold clamp. simpl.
  destruct (Z.leb_spec r 0); simpl; [lia|].
  destruct (Z.gtb_spec r R); lia.
Qed.

(** Both modes on a plaintext input: what each output holds. *)
Lemma plain_run (ctx : FHEcontext) (R L : Z) (zs : list Z)
      (digits digits' : list PCtxt) (r : Z) :
  wf_context ctx -> 1 <= R ->
  let c := mkPCtxt ctx R L zs in
  let p := zMStar_P ctx in
  let n := Z.to_nat (clamp c r) in
  exists ds df,
    extractDigits digits c r true = Some ds /\
    extractDigits digits' c r false = Some df /\
    length ds = n /\ length df = n /\
    forall j : nat, (j < n)%nat ->
      exists t w,
        ds !! j = Some t /\ df !! j = Some w /\
        is_digit ctx R L zs j t /\
        holds ctx (R - Z.of_nat j)
              (digit_level ctx L j - Z.of_nat (n - 1 - j) * levels_pow ctx)
              (p ^ (Z.of_nat n - Z.of_nat j))
              (fun z => peeledDigit p z j) zs w.
Proof.
  intros Hwf HR. cbn zeta.
  pose proof (clamp_plain ctx R L zs r HR) as Hcl.
  set (c := mkPCtxt ctx R L zs) in *. set (e := clamp c r) in *.
  assert (He0 : 0 <= e) by lia.
  destruct (modes_related digits digits' c r He0)
    as (x2p & ds & df & Hx & Ht & Hf & Hlt & Hlf & Hj).
  fold e in Hx, Hlt, Hlf, Hj. change (getP c) with (zMStar_P ctx) in *.
  destruct (run_returns digits c r true He0) as (x2p' & Hx' & Hrun).
  fold e in Hx', Hrun. change (getP c) with (zMStar_P ctx) in *.
  rewrite Hx in Hx'. injection Hx' as <-.
  cbn zeta in Hrun.
  destruct (shortcut_rounds ctx R L zs e x2p Hwf Hx (proj2 Hcl) digits)
    as [_ Hdig].
  cbn zeta in Hdig. fold c in Hdig.
  assert (Hds : ds = fr_digits
            (fold_left (round (zMStar_P ctx) x2p true) (seq 0 (Z.to_nat e))
                       (frame0 digits c (zMStar_P ctx) e))).
  { unfold extractDigits in Ht. rewrite Hrun in Ht. simpl in Ht.
    injection Ht as <-. reflexivity. }
  exists ds, df. repeat split; try assumption.
  intros j Hjn. destruct (Hj j Hjn) as (t & Hd & Hw).
  destruct (Hdig j Hjn) as (t' & Hd' & Ht').
  rewrite <- Hds in Hd'. rewrite Hd in Hd'. injection Hd' as <-.
  eexists t, _. split; [exact Hd|]. split; [exact Hw|]. split; [exact Ht'|].
  assert (H1 : Z.of_nat (Z.to_nat e - 1 - j) + 1 <= R - Z.of_nat j) by lia.
  assert (H2 : Z.of_nat (Z.to_nat e - 1 - j) < e) by lia.
  pose proof (holds_iter ctx zs e x2p Hwf Hx _ _ j _ t Ht' H1 H2) as Hit.
  replace (Z.of_nat (Z.to_nat e - 1 - j) + 1)
    with (Z.of_nat (Z.to_nat e) - Z.of_nat j) in Hit by lia.
  exact Hit.
Qed.

(** ** Digits, moduli and levels of the outputs *)

Lemma prime_3 : Z.prime 3.
Proof.
  split; [lia|]. intros n Hn [q Hq].
  assert (n = 2) as -> by lia. lia.
Qed.

(** C1 (as stated, refuted).  For [p = 3], [r = 2] and the slot value
    [z = 2], whose base-3 digits are [2] and [0]: with the shortcut the
    output [1] decrypts to [1] modulo [3]; without it the output [0]
    decrypts to [8] modulo [9]. *)
Lemma base_digits_fail_for_3 :
  Z.prime 3 /\ 0 <= 2 < 3 ^ 2 /\
  (exists ds d v,
     extractDigits [] sample3 0 true = Some ds /\
     ds !! 1%nat = Some d /\ slots d = [v] /\
     v mod 3 <> baseDigit 3 2 1 mod 3) /\
  (exists df d v,
     extractDigits [] sample3 0 false = Some df /\
     df !! 0%nat = Some d /\ slots d = [v] /\
     v mod 3 ^ (2 - 0) <> baseDigit 3 2 0 mod 3 ^ (2 - 0)).
Proof.
  split; [exact prime_3|]. split; [lia|]. split.
  - eexists _, _, _. split; [vm_compute; reflexivity|].
    split; [reflexivity|]. split; [reflexivity|]. vm_compute. discriminate.
  - eexists _, _, _. split; [vm_compute; reflexivity|].
    split; [reflexivity|]. split; [reflexivity|]. vm_compute. discriminate.
Qed.

(** C1 (amended).  For a prime [p], a ciphertext of capacity [R >= 1] and
    the clamped count [r], the routine returns [r] outputs and output [j]
    holds, in every slot, the [j]-th lowest digit of the slot's integer [z]
    in its base-[p] expansion with centred digits (from [-(p/2)] to [p/2];
    the ordinary binary digits for [p = 2]).  The digit is held modulo [p]
    with the shortcut and modulo [p^(r-j)] without it. *)
Theorem extractDigits_peels_digits (ctx : FHEcontext) (R L : Z) (zs : list Z)
        (digits : list PCtxt) (r : Z) (shortCut : bool) :
  wf_context ctx -> 1 <= R ->
  let c := mkPCtxt ctx R L zs in
  let p := zMStar_P ctx in
  let n := Z.to_nat (clamp c r) in
  exists ds,
    extractDigits digits c r shortCut = Some ds /\ length ds = n /\
    (forall j : nat, (j < n)%nat ->
       exists d,
         ds !! j = Some d /\
         Forall2 (fun v z =>
                    let M := if shortCut then p
                             else p ^ (Z.of_nat n - Z.of_nat j) in
                    v mod M = peeledDigit p z j mod M)
                 (slots d) zs) /\
    (forall z, (p ^ Z.of_nat n | z - digitSum p z n)) /\
    (forall z j, - (p / 2) <= peeledDigit p z j <= p / 2) /\
    (p = 2 -> forall z j, peeledDigit p z j = baseDigit p z j).
Proof.
  intros Hwf HR. cbn zeta.
  destruct (plain_run ctx R L zs digits digits r Hwf HR)
    as (ds & df & Ht & Hf & Hlt & Hlf & Hj).
  cbn zeta in Hj.
  pose proof (Z.prime_ge_2 _ (proj1 Hwf)) as Hp2.
  assert (Hlast : zMStar_P ctx = 2 ->
                  forall z j, peeledDigit (zMStar_P ctx) z j
                              = baseDigit (zMStar_P ctx) z j).
  { intros -> z j. apply peeledDigit_2. }
  assert (Hsum : forall (m : nat) z,
             (zMStar_P ctx ^ Z.of_nat m | z - digitSum (zMStar_P ctx) z m)).
  { intros m z. exists (residue (zMStar_P ctx) m z).
    pose proof (peeled_expansion (zMStar_P ctx) z m Hp2). lia. }
  assert (Hrange : forall z j, - (zMStar_P ctx / 2)
                               <= peeledDigit (zMStar_P ctx) z j
                               <= zMStar_P ctx / 2).
  { intros z j. apply digitRep_range. assumption. }
  destruct shortCut.
  - exists ds. split; [assumption|]. split; [assumption|].
    split; [|auto].
    intros j Hjn. destruct (Hj j Hjn) as (t & w & Hd & _ & Hdig & _).
    exists t. split; [assumption|].
    destruct Hdig as (_ & _ & _ & Hag). unfold agrees in Hag.
    eapply Forall2_impl; [exact Hag|]. intros v z Hv. cbn zeta.
    apply cong_iff_divide; [lia|assumption].
  - exists df. split; [assumption|]. split; [assumption|].
    split; [|auto].
    intros j Hjn. destruct (Hj j Hjn) as (t & w & _ & Hd & _ & Hw).
    exists w. split; [assumption|].
    destruct Hw as (_ & _ & _ & Hag). unfold agrees in Hag.
    eapply Forall2_impl; [exact Hag|]. intros v z Hv. cbn zeta.
    apply cong_iff_divide; [apply Z.pow_nonzero; lia|assumption].
Qed.

Lemma extractDigits_peels_digits_witness :
  wf_context ctx5 /\ 1 <= 3 /\
  let n := Z.to_nat (clamp sample5 0) in
  exists ds,
    extractDigits [] sample5 0 false = Some ds /\ length ds = n /\
    (forall j : nat, (j < n)%nat ->
       exists d,
         ds !! j = Some d /\
         Forall2 (fun v z =>
                    let M := 5 ^ (Z.of_nat n - Z.of_nat j) in
                    v mod M = peeledDigit 5 z j mod M)
                 (slots d) [7; 99; 0]) /\
    (forall z, (5 ^ Z.of_nat n | z - digitSum 5 z n)) /\
    (forall z j, - (5 / 2) <= peeledDigit 5 z j <= 5 / 2) /\
    (5 = 2 -> forall z j, peeledDigit 5 z j = baseDigit 5 z j).
Proof.
  assert (Hwf : wf_context ctx5).
  { split; [exact prime_5|]. simpl. lia. }
  split; [exact Hwf|]. split; [lia|].
  apply (extractDigits_peels_digits ctx5 3 10 [7; 99; 0] [] 0 false Hwf).
  lia.
Defined.





(** * Further properties *)

(** ** The outputs as a recursion on the input *)

Section ResidueFacts.

Context {Ctxt : Type} `{CtxtOps Ctxt}.

Implicit Types (st : Frame Ctxt) (c : Ctxt) (p r : Z) (x2p : ZZX).

Lemma residues_length p x2p c (k : nat) : length (residues p x2p c k) = k.
Proof.
  induction k as [|k IH]; simpl; [reflexivity|].
  rewrite length_app, IH. simpl. lia.
Qed.

(** The loop over [j], on [tmp]. *)
Lemma peel_loop_tmp p x2p st (k : nat) (ts : list Ctxt) :
  (forall j : nat, (j < k)%nat ->
     exists t, ts !! j = Some t /\
               fr_w st !! j = Some (Nat.iter (k - 1 - j) (pthPower p x2p) t)) ->
  fr_tmp (fold_left (peel p x2p) (seq 0 k) st)
  = fold_left (peelStep p x2p k ts) (seq 0 k) (fr_tmp st).
Proof.
  intros Hts.
  pose (P := fun (m : nat) (st' : Frame Ctxt) =>
               (forall j : nat, (m <= j)%nat -> fr_w st' !! j = fr_w st !! j) /\
               fr_tmp st'
               = fold_left (peelStep p x2p k ts) (seq 0 m) (fr_tmp st)).
  assert (HP : P k (fold_left (peel p x2p) (seq 0 k) st)).
  { apply (fold_left_seq_ind (peel p x2p) P); unfold P.
    - split; reflexivity.
    - intros m st' Hm [Hw Ht].
      destruct (Hts m Hm) as (t & Htm & Hwm).
      rewrite seq_S, fold_left_app. simpl.
      unfold peel. rewrite (Hw m (Nat.le_refl m)), Hwm. simpl. split.
      + intros j Hj. rewrite list_lookup_insert_ne by lia. apply Hw. lia.
      + unfold peelStep at 1. rewrite Htm, Ht.
        replace (k - m)%nat with (S (k - 1 - m)) by lia. reflexivity. }
  exact (proj2 HP).
Qed.

(** After [k] rounds with the shortcut, [digits] starts with the residues
    of these rounds. *)
Lemma rounds_residues p x2p c (n : nat) st :
  rounds_inv p x2p c n 0 st ->
  let st' := fold_left (round p x2p true) (seq 0 n) st in
  fr_digits st' = residues p x2p c n.
Proof.
  intros H0. cbn zeta.
  pose (S := fun (k : nat) (st' : Frame Ctxt) =>
               rounds_inv p x2p c n k st' /\
               forall j : nat, (j < k)%nat ->
                 fr_digits st' !! j = residues p x2p c k !! j).
  assert (HS : S n (fold_left (round p x2p true) (seq 0 n) st)).
  { apply (fold_left_seq_ind (round p x2p true) S); unfold S.
    - split; [assumption|]. intros j Hj. lia.
    - intros k st' Hk [Hinv Hdig].
      split; [apply round_inv; assumption|].
      destruct Hinv as (Hc & Hlw & Hld & Hj).
      assert (Htmp : fr_tmp (fold_left (peel p x2p) (seq 0 k) (reload st'))
                     = peelAll p x2p c k (residues p x2p c k)).
      { unfold peelAll.
        rewrite (peel_loop_tmp p x2p (reload st') k (residues p x2p c k));
          [simpl; rewrite Hc; reflexivity|].
        intros j Hjk. destruct (Hj j Hjk) as (t & Hd & Hw).
        exists t. split; [|exact Hw]. rewrite <- Hd. symmetry.
        apply Hdig. assumption. }
      destruct (peel_loop p x2p (reload st') k ltac:(simpl; lia))
        as (_ & Pd & _ & _).
      intros j HjS. unfold round, store. simpl fr_digits. rewrite Pd, Htmp.
      simpl fr_digits. simpl residues.
      destruct (decide (j = k)) as [->|Hne].
      + rewrite list_lookup_insert_eq by lia.
        rewrite lookup_app_r by (rewrite residues_length; lia).
        rewrite residues_length, Nat.sub_diag. reflexivity.
      + rewrite list_lookup_insert_ne by congruence.
        rewrite lookup_app_l by (rewrite residues_length; lia).
        apply Hdig. lia. }
  destruct HS as [(_ & _ & Hld & _) Hdig].
  apply list_eq. intros j. destruct (decide (j < n)%nat) as [Hlt|Hge].
  - apply Hdig. assumption.
  - rewrite !lookup_ge_None_2 by (rewrite ?residues_length; lia). reflexivity.
Qed.

(** Both modes, in terms of the residues. *)
Lemma run_residues (digits : list Ctxt) c r (shortCut : bool) :
  0 <= clamp c r ->
  let n := Z.to_nat (clamp c r) in
  exists x2p,
    digitPoly (getP c) (clamp c r) = Some x2p /\
    extractDigits digits c r shortCut
    = Some (if shortCut then residues (getP c) x2p c n
            else raised (getP c) x2p n (residues (getP c) x2p c n)).
Proof.
  intros Hr. cbn zeta.
  destruct (modes_related digits digits c r Hr)
    as (x2p & ds & df & Hx & Ht & Hf & Hlt & Hlf & Hj).
  destruct (run_returns digits c r true Hr) as (x2p' & Hx' & Hrun).
  rewrite Hx in Hx'. injection Hx' as <-. cbn zeta in Hrun.
  pose proof (rounds_residues (getP c) x2p c (Z.to_nat (clamp c r)) _
                (frame0_inv digits c (getP c) (clamp c r) x2p)) as Hres.
  cbn zeta in Hres.
  assert (Hds : ds = residues (getP c) x2p c (Z.to_nat (clamp c r))).
  { unfold extractDigits in Ht. rewrite Hrun in Ht. simpl in Ht.
    injection Ht as <-. exact Hres. }
  exists x2p. split; [assumption|]. destruct shortCut.
  - rewrite Ht, Hds. reflexivity.
  - rewrite Hf. f_equal. apply list_eq. intros j.
    unfold raised. rewrite list_lookup_imap.
    destruct (decide (j < Z.to_nat (clamp c r))%nat) as [Hlt'|Hge].
    + destruct (Hj j Hlt') as (t & Hd & Hw).
      rewrite Hw. rewrite <- Hds, Hd. reflexivity.
    + rewrite !lookup_ge_None_2 by (rewrite ?residues_length; lia).
      reflexivity.
Qed.

End ResidueFacts.

Section ResidueTheorems.

Context {Ctxt : Type} `{CtxtOps Ctxt}.

Implicit Types (st : Frame Ctxt) (c : Ctxt) (p r : Z) (x2p : ZZX).

Lemma residues_lookup_le p x2p c (k n j : nat) :
  (j < k)%nat -> (k <= n)%nat ->
  residues p x2p c n !! j = residues p x2p c k !! j.
Proof.
  intros Hj Hk. induction n as [|n IH].
  - assert (k = 0)%nat by lia. subst. reflexivity.
  - destruct (decide (k = S n)) as [->|Hne]; [reflexivity|].
    simpl residues. rewrite lookup_app_l by (rewrite residues_length; lia).
    apply IH. lia.
Qed.

(** X1.  The routine computes a recursion on its input: with the shortcut
    the outputs are the residues of the rounds, each obtained from [c] by
    subtracting the earlier residues, raised, and dividing by [p]; without
    it they are these residues raised [r - 1 - j] times. *)
Theorem extractDigits_is_recursion (digits : list Ctxt) c r
        (shortCut : bool) :
  0 <= clamp c r ->
  let n := Z.to_nat (clamp c r) in
  exists x2p,
    digitPoly (getP c) (clamp c r) = Some x2p /\
    extractDigits digits c r shortCut
    = Some (if shortCut then residues (getP c) x2p c n
            else raised (getP c) x2p n (residues (getP c) x2p c n)).
Proof.
  intros Hr. cbn zeta.
  destruct (run_residues digits c r shortCut Hr) as (x2p & Hx & Hd).
  exists x2p. split; [exact Hx|exact Hd].
Qed.

(** X2.  The output has as many entries as the clamped count and does not
    depend on what the vector [digits] held before the call: a longer
    vector is cut, and every entry kept is overwritten. *)
Theorem extractDigits_forgets_digits (digits digits' : list Ctxt) c r
        (shortCut : bool) :
  0 <= clamp c r ->
  extractDigits digits c r shortCut = extractDigits digits' c r shortCut /\
  exists ds, extractDigits digits c r shortCut = Some ds /\
             Z.of_nat (length ds) = clamp c r.
Proof.
  intros Hr.
  destruct (run_residues digits c r shortCut Hr) as (x2p & Hx & Hd).
  destruct (run_residues digits' c r shortCut Hr) as (x2p' & Hx' & Hd').
  rewrite Hx in Hx'. injection Hx' as <-. cbn zeta in Hd, Hd'.
  split; [rewrite Hd, Hd'; reflexivity|].
  eexists. split; [exact Hd|].
  destruct shortCut; unfold raised;
    rewrite ?length_imap, residues_length; lia.
Qed.

(** X3.  With the shortcut the first output is the input itself; without
    it the first output is the input after [r - 1] power operations. *)
Theorem first_output (digits : list Ctxt) c r :
  1 <= clamp c r ->
  let n := Z.to_nat (clamp c r) in
  exists x2p ds df,
    digitPoly (getP c) (clamp c r) = Some x2p /\
    extractDigits digits c r true = Some ds /\
    extractDigits digits c r false = Some df /\
    ds !! 0%nat = Some c /\
    df !! 0%nat = Some (Nat.iter (n - 1) (pthPower (getP c) x2p) c).
Proof.
  intros Hr. cbn zeta. assert (H0 : 0 <= clamp c r) by lia.
  destruct (run_residues digits c r true H0) as (x2p & Hx & Ht).
  destruct (run_residues digits c r false H0) as (x2p' & Hx' & Hf).
  rewrite Hx in Hx'. injection Hx' as <-. cbn zeta in Ht, Hf.
  assert (H1 : residues (getP c) x2p c (Z.to_nat (clamp c r)) !! 0%nat
               = Some c).
  { rewrite (residues_lookup_le _ _ _ 1 _ 0) by lia. reflexivity. }
  eexists x2p, _, _. split; [exact Hx|]. split; [exact Ht|].
  split; [exact Hf|]. split; [exact H1|].
  unfold raised. rewrite list_lookup_imap, H1. simpl.
  rewrite Nat.sub_0_r. reflexivity.
Qed.

(** X4.  When the clamped count is one, the routine returns the input
    alone, in both modes: no operation touches it. *)
Theorem single_digit_is_input (digits : list Ctxt) c r (shortCut : bool) :
  clamp c r = 1 ->
  extractDigits digits c r shortCut = Some [c].
Proof.
  intros Hr. assert (H0 : 0 <= clamp c r) by lia.
  destruct (run_residues digits c r shortCut H0) as (x2p & _ & Hd).
  cbn zeta in Hd. rewrite Hd, Hr. destruct shortCut; reflexivity.
Qed.

(** *** Counting the calls to [polyEval] *)

Lemma peel_loop_log_exact p x2p st (i : nat) :
  (i <= length (fr_w st))%nat ->
  let st' := fold_left (peel p x2p) (seq 0 i) st in
  length (fr_w st') = length (fr_w st) /\
  fr_log st' = fr_log st
               ++ replicate (if (p =? 2) || (p =? 3) then 0%nat else i)
                            (EvPolyEval x2p).
Proof.
  intros Hi. cbn zeta.
  pose (P := fun (m : nat) (st' : Frame Ctxt) =>
               length (fr_w st') = length (fr_w st) /\
               fr_log st' = fr_log st
                 ++ replicate (if (p =? 2) || (p =? 3) then 0%nat else m)
                              (EvPolyEval x2p)).
  apply (fold_left_seq_ind (peel p x2p) P); unfold P.
  - split; [reflexivity|]. destruct ((p =? 2) || (p =? 3)); simpl;
      rewrite app_nil_r; reflexivity.
  - intros m st' Hm [Hl Hlog].
    destruct (lookup_lt_is_Some_2 (fr_w st') m ltac:(lia)) as [wm Hwm].
    unfold peel. rewrite Hwm. simpl. rewrite length_insert.
    split; [assumption|]. rewrite Hlog.
    destruct ((p =? 2) || (p =? 3)); [reflexivity|].
    rewrite replicate_S_end, app_assoc. reflexivity.
Qed.

Lemma rounds_log_exact p x2p (b : bool) st (n : nat) :
  length (fr_w st) = n ->
  exists m : nat,
    (2 * m = n * (n - 1))%nat /\
    fr_log (fold_left (round p x2p b) (seq 0 n) st)
    = fr_log st ++ replicate (if (p =? 2) || (p =? 3) then 0%nat else m)
                             (EvPolyEval x2p).
Proof.
  intros Hn.
  pose (P := fun (k : nat) (st' : Frame Ctxt) =>
               length (fr_w st') = n /\
               exists m : nat,
                 (2 * m = k * (k - 1))%nat /\
                 fr_log st'
                 = fr_log st
                   ++ replicate (if (p =? 2) || (p =? 3) then 0%nat else m)
                                (EvPolyEval x2p)).
  assert (HP : P n (fold_left (round p x2p b) (seq 0 n) st)).
  { apply (fold_left_seq_ind (round p x2p b) P); unfold P.
    - split; [assumption|]. exists 0%nat. split; [reflexivity|].
      destruct ((p =? 2) || (p =? 3)); simpl; rewrite app_nil_r; reflexivity.
    - intros k st' Hk (Hl & m & Hm & Hlog).
      destruct (peel_loop_log_exact p x2p (reload st') k ltac:(simpl; lia))
        as [Pl Plog].
      unfold round, store. simpl. rewrite length_insert, Pl. simpl.
      split; [assumption|]. exists (m + k)%nat. split; [nia|].
      rewrite Plog. simpl. rewrite Hlog.
      destruct ((p =? 2) || (p =? 3)).
      + simpl. rewrite !app_nil_r. reflexivity.
      + rewrite <- app_assoc, replicate_add. reflexivity. }
  exact (proj2 HP).
Qed.

(** X5.  A run makes [r (r - 1) / 2] calls to [polyEval] when [p > 3],
    all with the polynomial built once at the start, and none when [p] is
    [2] or [3]; the builder is called at most once. *)
Theorem polyEval_call_count (digits : list Ctxt) c r (shortCut : bool) :
  0 <= clamp c r ->
  let n := Z.to_nat (clamp c r) in
  exists x2p st (m : nat),
    digitPoly (getP c) (clamp c r) = Some x2p /\
    extractDigits_run digits c r shortCut = Some st /\
    (2 * m = n * (n - 1))%nat /\
    (3 < getP c ->
     fr_log st = EvBuild (getP c) (clamp c r)
                 :: replicate m (EvPolyEval x2p)) /\
    (getP c = 2 \/ getP c = 3 -> fr_log st = []).
Proof.
  intros Hr. cbn zeta.
  destruct (run_returns digits c r shortCut Hr) as (x2p & Hx & Hrun).
  cbn zeta in Hrun.
  set (n := Z.to_nat (clamp c r)) in *. set (p := getP c) in *.
  set (st0 := frame0 digits c p (clamp c r)) in *.
  destruct (rounds_log_exact p x2p shortCut st0 n) as (m & Hm & Hlog).
  { unfold st0, frame0. simpl. apply length_replicate. }
  eexists x2p, _, m. split; [exact Hx|]. split; [exact Hrun|].
  split; [exact Hm|].
  assert (Hfin : fr_log (if shortCut
                   then fold_left (round p x2p shortCut) (seq 0 n) st0
                   else fold_left copy_back (seq 0 n)
                          (fold_left (round p x2p shortCut) (seq 0 n) st0))
                 = fr_log (fold_left (round p x2p shortCut) (seq 0 n) st0)).
  { destruct shortCut; [reflexivity|apply copy_back_loop_log]. }
  rewrite Hfin, Hlog. unfold st0, frame0. simpl. split.
  - intros Hp. destruct (Z.gtb_spec p 3); [|lia].
    destruct (Z.eqb_spec p 2); [lia|]. destruct (Z.eqb_spec p 3); [lia|].
    reflexivity.
  - intros [Hp|Hp]; rewrite Hp; reflexivity.
Qed.

End ResidueTheorems.

Lemma extractDigits_is_recursion_witness :
  0 <= clamp sample5 0 /\
  let n := Z.to_nat (clamp sample5 0) in
  exists x2p,
    digitPoly (getP sample5) (clamp sample5 0) = Some x2p /\
    extractDigits [] sample5 0 false
    = Some (raised (getP sample5) x2p n (residues (getP sample5) x2p sample5 n)).
Proof.
  split; [vm_compute; discriminate|].
  apply (extractDigits_is_recursion [] sample5 0 false).
  vm_compute. discriminate.
Defined.

Lemma extractDigits_forgets_digits_witness :
  0 <= clamp sample5 2 /\
  extractDigits [sample3; sample2; single5] sample5 2 true
  = extractDigits [] sample5 2 true /\
  exists ds, extractDigits [sample3; sample2; single5] sample5 2 true = Some ds /\
             Z.of_nat (length ds) = clamp sample5 2.
Proof.
  split; [vm_compute; discriminate|].
  apply (extractDigits_forgets_digits [sample3; sample2; single5] []
                                      sample5 2 true).
  vm_compute. discriminate.
Defined.

Lemma first_output_witness :
  1 <= clamp sample5 0 /\
  let n := Z.to_nat (clamp sample5 0) in
  exists x2p ds df,
    digitPoly (getP sample5) (clamp sample5 0) = Some x2p /\
    extractDigits [] sample5 0 true = Some ds /\
    extractDigits [] sample5 0 false = Some df /\
    ds !! 0%nat = Some sample5 /\
    df !! 0%nat = Some (Nat.iter (n - 1) (pthPower (getP sample5) x2p) sample5).
Proof.
  split; [vm_compute; discriminate|].
  apply (first_output [] sample5 0). vm_compute. discriminate.
Defined.

Lemma single_digit_is_input_witness :
  clamp single5 0 = 1 /\ extractDigits [] single5 0 false = Some [single5].
Proof.
  split; [reflexivity|].
  apply (single_digit_is_input [] single5 0 false). reflexivity.
Defined.

Lemma polyEval_call_count_witness :
  0 <= clamp sample5 0 /\
  let n := Z.to_nat (clamp sample5 0) in
  exists x2p st (m : nat),
    digitPoly (getP sample5) (clamp sample5 0) = Some x2p /\
    extractDigits_run [] sample5 0 true = Some st /\
    (2 * m = n * (n - 1))%nat /\
    (3 < getP sample5 ->
     fr_log st = EvBuild (getP sample5) (clamp sample5 0)
                 :: replicate m (EvPolyEval x2p)) /\
    (getP sample5 = 2 \/ getP sample5 = 3 -> fr_log st = []).
Proof.
  split; [vm_compute; discriminate|].
  apply (polyEval_call_count [] sample5 0 true). vm_compute. discriminate.
Defined.

(** ** More on the table and the polynomial *)

(** X6.  For a prime [p], every ordinate of the interpolation table is a
    multiple of [p]: [z - z^p] vanishes modulo [p]. *)
Theorem table_ordinates_divisible (p e : Z) :
  Z.prime p -> 1 < e ->
  length (snd (digitTable p e)) = Z.to_nat p /\
  Forall (fun y => (p | y)) (snd (digitTable p e)).
Proof.
  intros Hp He. split; [apply digitTable_length|].
  rewrite digitTable_eq. simpl snd.
  apply List.Forall_forall. intros y Hy.
  apply in_map_iff in Hy. destruct Hy as (j & <- & _).
  apply table_y_divisible; [assumption|lia].
Qed.

Lemma table_ordinates_divisible_witness :
  length (snd (digitTable 5 2)) = Z.to_nat 5 /\
  Forall (fun y => (5 | y)) (snd (digitTable 5 2)).
Proof. apply (table_ordinates_divisible 5 2); [exact prime_5|lia]. Defined.

(** X7.  In the table loop the argument of [PowerMod] is always a residue
    in [[0, p^e)]; the value [z - PowerMod(...)] never exceeds [p^e/2], so
    the first folding loop never runs, and the second runs at most once:
    [y[j]] is that value, plus [p^e] when it lies below [-(p^e/2)]. *)
Theorem table_ordinate_closed_form (p e : Z) (j : nat) :
  2 <= p -> 1 <= e -> (j < Z.to_nat p)%nat ->
  let p2e := power_long p e in
  let z := table_x p j in
  let a := PowerMod_arg p2e z in
  let y0 := z - PowerMod a p p2e in
  0 <= a < p2e /\ a mod p2e = z mod p2e /\
  y0 <= p2e / 2 /\
  snd (digitTable p e) !! j
  = Some (if y0 <? - (p2e / 2) then y0 + p2e else y0).
Proof.
  intros Hp He Hj. cbn zeta.
  pose proof (power_long_pos p e Hp ltac:(lia)) as Hpos.
  set (m := power_long p e) in *. set (z := table_x p j).
  assert (Hpm : p <= m).
  { unfold m, power_long. replace p with (p ^ 1) at 1 by apply Z.pow_1_r.
    apply Z.pow_le_mono_r; lia. }
  assert (Hq : p ÷ 2 = p / 2) by (apply Z.quot_div_nonneg; lia).
  assert (Hmq : m ÷ 2 = m / 2) by (apply Z.quot_div_nonneg; lia).
  pose proof (Z.div_mod p 2 ltac:(lia)) as Hp2.
  pose proof (Z.mod_pos_bound p 2 ltac:(lia)) as Hp2'.
  pose proof (Z.div_mod m 2 ltac:(lia)) as Hm2.
  pose proof (Z.mod_pos_bound m 2 ltac:(lia)) as Hm2'.
  assert (Hz : - (p / 2) <= z <= p - 1 - p / 2).
  { unfold z, table_x. rewrite Hq. lia. }
  assert (Ha : 0 <= PowerMod_arg m z < m).
  { unfold PowerMod_arg. destruct (Z.ltb_spec z 0); lia. }
  assert (Ham : PowerMod_arg m z mod m = z mod m).
  { unfold PowerMod_arg. destruct (Z.ltb_spec z 0); [|reflexivity].
    replace (z + m) with (z + 1 * m) by ring. apply Z.mod_add. lia. }
  split; [assumption|]. split; [assumption|].
  pose proof (Z.mod_pos_bound (PowerMod_arg m z ^ p) m Hpos) as Hpw.
  fold (PowerMod (PowerMod_arg m z) p m) in Hpw.
  set (y0 := z - PowerMod (PowerMod_arg m z) p m) in *.
  assert (Hy0 : - (p / 2) - m < y0 <= p - 1 - p / 2) by (unfold y0; lia).
  split; [lia|].
  destruct (digitTable_lookup p e j Hj) as [_ Hy]. rewrite Hy. f_equal.
  unfold table_y. cbn zeta. fold m. fold z.
  change (if z <? 0 then z + m else z) with (PowerMod_arg m z). fold y0.
  unfold fold_centered. cbn zeta. rewrite Hmq.
  destruct (while_above_spec (Z.to_nat ((y0 - m / 2) / m + 1)) (m / 2) m y0
              Hpos ltac:(lia)) as (_ & A2 & _ & _).
  rewrite (A2 ltac:(lia)).
  destruct (while_below_spec (Z.to_nat ((- (m / 2) - y0) / m + 1))
              (- (m / 2)) m y0 Hpos ltac:(lia)) as (B1 & B2 & B3 & B4).
  destruct (Z.ltb_spec y0 (- (m / 2))) as [Hlt|Hge].
  - specialize (B3 Hlt).
    set (r := while_below _ _ m y0) in *.
    apply cong_iff_divide in B4; [|lia]. destruct B4 as [q Hq'].
    assert (q = 1) by nia. lia.
  - apply B2. assumption.
Qed.

Lemma table_ordinate_closed_form_witness :
  2 <= 5 /\ 1 <= 2 /\
  snd (digitTable 5 2) !! 0%nat
  = Some (let y0 := table_x 5 0 - PowerMod (PowerMod_arg (power_long 5 2)
                                              (table_x 5 0)) 5 (power_long 5 2) in
          if y0 <? - (power_long 5 2 / 2) then y0 + power_long 5 2 else y0).
Proof.
  split; [lia|]. split; [lia|].
  apply (table_ordinate_closed_form 5 2 0); lia.
Defined.

(** X9.  For a prime [p] and [e > 1] the polynomial returned has [p + 1]
    coefficients; the one of [x^p] is one and all the others are multiples
    of [p]. *)
Theorem digit_poly_coefficients (result : ZZX) (p e : Z) :
  Z.prime p -> 1 < e ->
  exists poly : list Z,
    buildDigitPolynomial result p e = Some poly /\
    length poly = S (Z.to_nat p) /\
    poly !! Z.to_nat p = Some 1 /\
    Forall (fun c => (p | c)) (take (Z.to_nat p) poly).
Proof.
  intros Hp He. pose proof (Z.prime_ge_2 p Hp) as Hp2.
  destruct (buildDigitPolynomial_shape result p e Hp2 He) as [Hd Hb].
  destruct (correction_spec p e Hp ltac:(lia)) as [Hdiv _].
  cbn zeta in Hd, Hb, Hdiv.
  set (Q := interpolateMod _ _ p e) in *.
  eexists. split; [exact Hb|].
  unfold ZZX.deg in Hd. rewrite SetCoeff_shape by lia.
  set (g := ZZX.normalize Q) in *.
  assert (Hlen : length (g ++ replicate (Z.to_nat p - length g) 0)
                 = Z.to_nat p).
  { rewrite length_app, length_replicate. lia. }
  rewrite app_assoc. split; [rewrite length_app, Hlen; simpl; lia|]. split.
  - rewrite lookup_app_r by lia. rewrite Hlen, Nat.sub_diag. reflexivity.
  - rewrite (take_app_length' _ _ _ (eq_sym Hlen)).
    apply Forall_app. split.
    + apply Forall_normalize. assumption.
    + apply Forall_replicate. apply Z.divide_0_r.
Qed.

Lemma digit_poly_coefficients_witness :
  exists poly : list Z,
    buildDigitPolynomial [] 5 3 = Some poly /\
    length poly = S (Z.to_nat 5) /\
    poly !! Z.to_nat 5 = Some 1 /\
    Forall (fun c => (5 | c)) (take (Z.to_nat 5) poly).
Proof. apply (digit_poly_coefficients [] 5 3); [exact prime_5|lia]. Defined.

(** ** The two modes on plaintexts *)

Lemma agrees_both (m : Z) (f : Z -> Z) (zs : list Z) (a b : PCtxt) :
  m <> 0 -> agrees m f zs a -> agrees m f zs b ->
  Forall2 (fun u v => u mod m = v mod m) (slots a) (slots b).
Proof.
  intros Hm. unfold agrees. generalize (slots a) (slots b).
  intros la lb Ha. revert lb.
  induction Ha as [|u z la zs Hu _ IH]; intros lb Hb.
  - inversion Hb. constructor.
  - inversion Hb as [|v z' lb' zs' Hv Hb']; subst. constructor.
    + apply cong_iff_divide; [assumption|].
      replace (u - v) with ((u - f z) - (v - f z)) by ring.
      apply Z.divide_sub_r; assumption.
    + apply IH. assumption.
Qed.

(** X8.  On plaintexts, for a prime [p] and every index [j] below the
    clamped count, the outputs [j] of the two modes hold the same digit:
    their slots agree modulo [p], and they have the same capacity. *)
Theorem modes_agree_modulo_p (ctx : FHEcontext) (R L : Z) (zs : list Z)
        (digits digits' : list PCtxt) (r : Z) :
  wf_context ctx -> 1 <= R ->
  let c := mkPCtxt ctx R L zs in
  let p := zMStar_P ctx in
  let n := Z.to_nat (clamp c r) in
  exists ds df,
    extractDigits digits c r true = Some ds /\
    extractDigits digits' c r false = Some df /\
    length ds = n /\ length df = n /\
    forall j : nat, (j < n)%nat ->
      exists t w,
        ds !! j = Some t /\ df !! j = Some w /\
        effR t = effR w /\
        Forall2 (fun u v => u mod p = v mod p) (slots t) (slots w).
Proof.
  intros Hwf HR. cbn zeta.
  destruct (plain_run ctx R L zs digits digits' r Hwf HR)
    as (ds & df & Ht & Hf & Hlt & Hlf & Hj).
  cbn zeta in Hj. pose proof (Z.prime_ge_2 _ (proj1 Hwf)) as Hp2.
  exists ds, df. repeat split; try assumption.
  intros j Hjn. destruct (Hj j Hjn) as (t & w & Hd & Hw & Hdig & Hh).
  exists t, w. split; [assumption|]. split; [assumption|].
  destruct Hdig as (_ & Et & _ & At). destruct Hh as (_ & Ew & _ & Aw).
  split; [congruence|].
  apply (agrees_both _ (fun z => peeledDigit (zMStar_P ctx) z j) zs);
    [lia|assumption|].
  eapply agrees_impl; [|exact Aw]. intros v z Hv. cbn beta in *.
  eapply Z.divide_trans; [|exact Hv].
  replace (zMStar_P ctx) with (zMStar_P ctx ^ 1) at 1 by apply Z.pow_1_r.
  apply divide_pow_le. lia.
Qed.

Lemma modes_agree_modulo_p_witness :
  wf_context ctx5 /\ 1 <= 3 /\
  let n := Z.to_nat (clamp sample5 0) in
  exists ds df,
    extractDigits [] sample5 0 true = Some ds /\
    extractDigits [] sample5 0 false = Some df /\
    length ds = n /\ length df = n /\
    forall j : nat, (j < n)%nat ->
      exists t w,
        ds !! j = Some t /\ df !! j = Some w /\
        effR t = effR w /\
        Forall2 (fun u v => u mod 5 = v mod 5) (slots t) (slots w).
Proof.
  assert (Hwf : wf_context ctx5).
  { split; [exact prime_5|]. simpl. lia. }
  split; [exact Hwf|]. split; [lia|].
  apply (modes_agree_modulo_p ctx5 3 10 [7; 99; 0] [] [] 0 Hwf). lia.
Defined.

(** ** Asking for fewer digits *)

Section PrefixStability.

Context {Ctxt : Type} `{CtxtOps Ctxt}.

Lemma residues_take (p : Z) (x2p : ZZX) (c : Ctxt) (k n : nat) :
  (k <= n)%nat -> take k (residues p x2p c n) = residues p x2p c k.
Proof.
  intros Hk. apply list_eq. intros j.
  destruct (decide (j < k)%nat) as [Hlt|Hge].
  - rewrite lookup_take_lt by assumption.
    apply (residues_lookup_le p x2p c k n j); assumption.
  - rewrite lookup_take_ge by lia.
    rewrite lookup_ge_None_2 by (rewrite residues_length; lia). reflexivity.
Qed.

(** X10.  For [p = 2] and [p = 3], with the shortcut, the outputs for a
    count [r] are the first [r] outputs for any larger count within the
    capacity: asking for fewer digits does not change the digits
    obtained. *)
Theorem shortcut_prefix_stable (digits digits' : list Ctxt) (c : Ctxt)
        (r r' : Z) :
  getP c = 2 \/ getP c = 3 ->
  0 < r <= r' -> r' <= effectiveR c ->
  exists ds ds',
    extractDigits digits c r true = Some ds /\
    extractDigits digits' c r' true = Some ds' /\
    ds = take (Z.to_nat r) ds'.
Proof.
  intros Hp Hr Hr'.
  assert (Hc : clamp c r = r).
  { unfold clamp. cbn zeta. destruct (Z.leb_spec r 0); [lia|].
    destruct (Z.gtb_spec r (effectiveR c)); [lia|]. reflexivity. }
  assert (Hc' : clamp c r' = r').
  { unfold clamp. cbn zeta. destruct (Z.leb_spec r' 0); [lia|].
    destruct (Z.gtb_spec r' (effectiveR c)); [lia|]. reflexivity. }
  assert (H0 : 0 <= clamp c r) by lia.
  assert (H0' : 0 <= clamp c r') by lia.
  destruct (run_residues digits c r true H0) as (x2p & Hx & Hd).
  destruct (run_residues digits' c r' true H0') as (x2p' & Hx' & Hd').
  cbn zeta in Hd, Hd'. rewrite Hc in *. rewrite Hc' in *.
  assert (E : x2p = [] /\ x2p' = []).
  { unfold digitPoly in Hx, Hx'.
    destruct (Z.gtb_spec (getP c) 3); [lia|].
    injection Hx as <-. injection Hx' as <-. auto. }
  destruct E as [-> ->].
  eexists _, _. split; [exact Hd|]. split; [exact Hd'|].
  symmetry. apply residues_take. lia.
Qed.

End PrefixStability.

Lemma shortcut_prefix_stable_witness :
  (getP sample3 = 2 \/ getP sample3 = 3) /\ 0 < 1 <= 2 /\
  2 <= effectiveR sample3 /\
  exists ds ds',
    extractDigits [] sample3 1 true = Some ds /\
    extractDigits [] sample3 2 true = Some ds' /\
    ds = take (Z.to_nat 1) ds'.
Proof.
  split; [right; reflexivity|]. split; [lia|].
  split; [vm_compute; discriminate|].
  apply (shortcut_prefix_stable [] [] sample3 1 2).
  - right. reflexivity.
  - lia.
  - vm_compute. discriminate.
Defined.

(** ** Symmetry of the table *)

Lemma centred_unique (m a b : Z) :
  0 < m -> a mod m = b mod m ->
  - (m / 2) <= a <= m / 2 -> - (m / 2) <= b <= m / 2 ->
  Z.odd m = true -> a = b.
Proof.
  intros Hm Hab Ha Hb Hodd.
  apply cong_iff_divide in Hab; [|lia]. destruct Hab as [q Hq].
  pose proof (Zdiv2_odd_eqn m) as Hd. rewrite Hodd in Hd.
  rewrite Z.div2_div in Hd.
  assert (q = 0) by nia. lia.
Qed.

(** X11.  For odd [p] the table is symmetric about zero: the abscissa and
    the ordinate at index [p - 1 - j] are the opposites of those at index
    [j]. *)
Theorem table_odd_symmetry (p e : Z) (j : nat) :
  2 <= p -> 1 <= e -> Z.odd p = true -> (j < Z.to_nat p)%nat ->
  exists x y x' y',
    fst (digitTable p e) !! j = Some x /\
    snd (digitTable p e) !! j = Some y /\
    fst (digitTable p e) !! (Z.to_nat p - 1 - j)%nat = Some x' /\
    snd (digitTable p e) !! (Z.to_nat p - 1 - j)%nat = Some y' /\
    x' = - x /\ y' = - y.
Proof.
  intros Hp He Hodd Hj.
  destruct (digitTable_lookup p e j Hj) as [Hx Hy].
  destruct (digitTable_lookup p e (Z.to_nat p - 1 - j)%nat ltac:(lia))
    as [Hx' Hy'].
  eexists _, _, _, _. split; [exact Hx|]. split; [exact Hy|].
  split; [exact Hx'|]. split; [exact Hy'|].
  assert (Hq : p ÷ 2 = p / 2) by (apply Z.quot_div_nonneg; lia).
  pose proof (Zdiv2_odd_eqn p) as Hd. rewrite Hodd in Hd.
  rewrite Z.div2_div in Hd.
  assert (Ex : table_x p (Z.to_nat p - 1 - j) = - table_x p j).
  { unfold table_x. rewrite Hq. lia. }
  split; [exact Ex|].
  assert (Hpos : 0 < p ^ e) by (apply Z.pow_pos_nonneg; lia).
  assert (Hmodd : Z.odd (p ^ e) = true)
    by (rewrite Z.odd_pow; [assumption|lia]).
  apply (centred_unique (p ^ e)); try assumption.
  - rewrite !table_y_cong by lia. rewrite Ex.
    rewrite Z.pow_opp_odd by (apply Z.odd_spec; assumption).
    apply cong_iff_divide; [lia|].
    pose proof (table_y_cong p e j Hp ltac:(lia)) as Hc.
    apply cong_iff_divide in Hc; [|lia]. destruct Hc as [q Hq'].
    exists q. lia.
  - apply table_y_range; lia.
  - pose proof (table_y_range p e j Hp ltac:(lia)). lia.
Qed.

Lemma table_odd_symmetry_witness :
  2 <= 5 /\ 1 <= 2 /\ Z.odd 5 = true /\
  exists x y x' y',
    fst (digitTable 5 2) !! 1%nat = Some x /\
    snd (digitTable 5 2) !! 1%nat = Some y /\
    fst (digitTable 5 2) !! (Z.to_nat 5 - 1 - 1)%nat = Some x' /\
    snd (digitTable 5 2) !! (Z.to_nat 5 - 1 - 1)%nat = Some y' /\
    x' = - x /\ y' = - y.
Proof.
  split; [lia|]. split; [lia|]. split; [reflexivity|].
  apply (table_odd_symmetry 5 2 1); [lia|lia|reflexivity|].
  vm_compute. lia.
Defined.

(** ** The two modes, output by output *)

(** C8 (as stated, refuted).  For [p = 5] and a ciphertext of capacity
    three, the outputs [0] of the two modes have the same declared
    plaintext modulus, [125]; what differs is what they hold: [7], [99],
    [0] with the shortcut, [2], [124], [0] without. *)
Lemma earlier_digits_differ_in_content :
  exists ds df a b,
    extractDigits [] sample5 0 true = Some ds /\
    extractDigits [] sample5 0 false = Some df /\
    ds !! 0%nat = Some a /\ df !! 0%nat = Some b /\
    ptxtSpace a = ptxtSpace b /\
    slots a = [7; 99; 0] /\ slots b = [2; 124; 0] /\ slots a <> slots b.
Proof.
  eexists _, _, _, _. split; [vm_compute; reflexivity|].
  split; [vm_compute; reflexivity|]. split; [reflexivity|].
  split; [reflexivity|]. split; [reflexivity|]. split; [reflexivity|].
  split; [reflexivity|]. discriminate.
Qed.

(** C8 (amended).  For the same input and count, the outputs at index
    [r - 1] of the two modes are the same ciphertext, and decrypt alike
    whatever the decryption is.  At every index [j] the two outputs have
    the same declared plaintext modulus [p^(R-j)], [p^R] being that of the
    input; the output without the shortcut is the output with the shortcut
    after [r - 1 - j] power operations, and where the latter holds the
    digit [j] of every slot up to multiples of [p], the former holds it up
    to multiples of [p^(r-j)]. *)
Theorem modes_differ_in_precision {A : Type} (decrypt : PCtxt -> A)
        (ctx : FHEcontext) (R L : Z) (zs : list Z)
        (digits digits' : list PCtxt) (r : Z) :
  wf_context ctx -> 1 <= R ->
  let c := mkPCtxt ctx R L zs in
  let p := zMStar_P ctx in
  let n := Z.to_nat (clamp c r) in
  exists x2p ds df,
    digitPoly p (clamp c r) = Some x2p /\
    extractDigits digits c r true = Some ds /\
    extractDigits digits' c r false = Some df /\
    (exists a b, ds !! (n - 1)%nat = Some a /\ df !! (n - 1)%nat = Some b /\
                 a = b /\ decrypt a = decrypt b) /\
    forall j : nat, (j < n)%nat ->
      exists t w,
        ds !! j = Some t /\ df !! j = Some w /\
        w = Nat.iter (n - 1 - j) (pthPower p x2p) t /\
        ptxtSpace t = p ^ (R - Z.of_nat j) /\
        ptxtSpace w = p ^ (R - Z.of_nat j) /\
        agrees p (fun z => peeledDigit p z j) zs t /\
        agrees (p ^ (Z.of_nat n - Z.of_nat j))
               (fun z => peeledDigit p z j) zs w.
Proof.
  intros Hwf HR. cbn zeta.
  pose proof (clamp_plain ctx R L zs r HR) as Hcl.
  set (c := mkPCtxt ctx R L zs) in *.
  assert (He0 : 0 <= clamp c r) by lia.
  destruct (modes_related digits digits' c r He0)
    as (x2p & ds & df & Hx & Ht & Hf & _ & _ & Hrel).
  destruct (plain_run ctx R L zs digits digits' r Hwf HR)
    as (ds' & df' & Ht' & Hf' & _ & _ & Hj).
  cbn zeta in Hrel, Hj. fold c in Ht', Hf', Hj.
  rewrite Ht in Ht'. injection Ht' as <-.
  rewrite Hf in Hf'. injection Hf' as <-.
  change (getP c) with (zMStar_P ctx) in *.
  set (n := Z.to_nat (clamp c r)) in *.
  assert (Hall : forall j : nat, (j < n)%nat ->
    exists t w,
      ds !! j = Some t /\ df !! j = Some w /\
      w = Nat.iter (n - 1 - j) (pthPower (zMStar_P ctx) x2p) t /\
      ptxtSpace t = zMStar_P ctx ^ (R - Z.of_nat j) /\
      ptxtSpace w = zMStar_P ctx ^ (R - Z.of_nat j) /\
      agrees (zMStar_P ctx) (fun z => peeledDigit (zMStar_P ctx) z j) zs t /\
      agrees (zMStar_P ctx ^ (Z.of_nat n - Z.of_nat j))
             (fun z => peeledDigit (zMStar_P ctx) z j) zs w).
  { intros j Hjn.
    destruct (Hj j Hjn) as (t & w & Et & Ew & Hdig & Hh).
    destruct (Hrel j Hjn) as (t' & Et' & Ew').
    rewrite Et in Et'. injection Et' as <-.
    rewrite Ew in Ew'. injection Ew' as Ew'.
    destruct Hdig as (Ct & Rt & _ & At). destruct Hh as (Cw & Rw & _ & Aw).
    exists t, w. unfold ptxtSpace. rewrite Ct, Rt, Cw, Rw.
    repeat split; assumption. }
  exists x2p, ds, df. repeat split; try assumption.
  destruct (Hall (n - 1)%nat ltac:(lia)) as (t & w & Et & Ew & Eiter & _).
  replace (n - 1 - (n - 1))%nat with 0%nat in Eiter by lia.
  simpl in Eiter. subst w. exists t, t. auto.
Qed.

Lemma modes_differ_in_precision_witness :
  wf_context ctx5 /\ 1 <= 3 /\
  let n := Z.to_nat (clamp sample5 0) in
  exists x2p ds df,
    digitPoly 5 (clamp sample5 0) = Some x2p /\
    extractDigits [] sample5 0 true = Some ds /\
    extractDigits [] sample5 0 false = Some df /\
    (exists a b, ds !! (n - 1)%nat = Some a /\ df !! (n - 1)%nat = Some b /\
                 a = b /\ slots a = slots b) /\
    forall j : nat, (j < n)%nat ->
      exists t w,
        ds !! j = Some t /\ df !! j = Some w /\
        w = Nat.iter (n - 1 - j) (pthPower 5 x2p) t /\
        ptxtSpace t = 5 ^ (3 - Z.of_nat j) /\
        ptxtSpace w = 5 ^ (3 - Z.of_nat j) /\
        agrees 5 (fun z => peeledDigit 5 z j) [7; 99; 0] t /\
        agrees (5 ^ (Z.of_nat n - Z.of_nat j))
               (fun z => peeledDigit 5 z j) [7; 99; 0] w.
Proof.
  assert (Hwf : wf_context ctx5).
  { split; [exact prime_5|]. simpl. lia. }
  split; [exact Hwf|]. split; [lia|].
  apply (modes_differ_in_precision slots ctx5 3 10 [7; 99; 0] [] [] 0 Hwf).
  lia.
Defined.
